(** * apply_tags.py: a regex-driven source patcher, and what it guarantees

    The script reads one Rust file, runs its rewriting stages over the
    buffer ([re.sub] for the struct, [re.sub] with a callback for
    [get_screenshots], a guarded [str.replace] for the new command,
    [re.sub] with a callback for the other construction sites, and one
    [re.sub] that replaces each match by itself) and writes the buffer
    back.

    The development has three parts.

    - The model: Python [str] values as lists of code points; [str.find],
      [in], [str.replace]; the fragment of Python's backtracking [re]
      engine that the script's patterns use (literals, lazy and greedy star
      over a character class, concatenation, capture groups) with
      [re.sub]'s left-to-right scan; the script itself, stage by stage; a
      sample target file.
    - The vocabulary of the statements: first occurrences, the shape of the
      texts the patterns read, relations between a text and its
      replacement.
    - The facts: about strings, about the engine, that the patterns and
      templates print back to the text of the source, and then the
      properties of the stages and of the whole transformation. *)

From Stdlib Require Import String Ascii.
From Stdlib Require Import List NArith Arith Lia Bool.
Import ListNotations.

(* ================================================================== *)
(** * Python strings *)
(* ================================================================== *)

(** A Python [str] is a sequence of Unicode code points. *)
Definition char := N.
Definition str := list char.

(** An ASCII literal as a [str]. *)
Definition lit (s : string) : str := map N_of_ascii (list_ascii_of_string s).

(** The two characters that cannot be written inside a literal here. *)
Definition nl : str := [10%N].
Definition dq : str := [34%N].

(** A full line of a triple-quoted Python string: the text and its newline. *)
Definition ln (s : string) : str := lit s ++ nl.

(** [strip_prefix p s] is [Some rest] when [s = p ++ rest]. *)
Fixpoint strip_prefix (p s : str) : option str :=
  match p with
  | [] => Some s
  | a :: p' =>
      match s with
      | b :: s' => if N.eqb a b then strip_prefix p' s' else None
      | [] => None
      end
  end.

(** [s.startswith(p)] *)
Definition starts_with (p s : str) : bool :=
  match strip_prefix p s with Some _ => true | None => false end.

(** [s.find(sub)]: index of the first occurrence, [None] for Python's -1. *)
Fixpoint find (sub s : str) {struct s} : option nat :=
  if starts_with sub s then Some 0
  else match s with
       | [] => None
       | _ :: t => option_map S (find sub t)
       end.

(** [sub in s] *)
Definition contains (sub s : str) : bool :=
  match find sub s with Some _ => true | None => false end.

(** Number of positions of [s] at which [sub] occurs. *)
Fixpoint occurrences (sub s : str) {struct s} : nat :=
  (if starts_with sub s then 1 else 0) +
  match s with
  | [] => 0
  | _ :: t => occurrences sub t
  end.

(** [s.replace(old, new)]: every non-overlapping occurrence, left to right.
    The scan restarts after each replaced occurrence; [fuel] bounds the
    number of restarts and [S (length s)] is always enough.  An empty [old]
    matches between all characters. *)
Fixpoint interleave (new s : str) : str :=
  match s with
  | [] => new
  | c :: t => new ++ c :: interleave new t
  end.

Fixpoint replace_go (fuel : nat) (old new s : str) : str :=
  match fuel with
  | 0 => s
  | S n =>
      match find old s with
      | None => s
      | Some i =>
          firstn i s ++ new ++ replace_go n old new (skipn (i + length old) s)
      end
  end.

Definition str_replace (old new s : str) : str :=
  match old with
  | [] => interleave new s
  | _ => replace_go (S (length s)) old new s
  end.

(* ================================================================== *)
(** * The regular-expression engine *)
(* ================================================================== *)

(** Character classes the patterns use: [.] under [re.DOTALL], [.] without
    it, and [\s]. *)
Inductive cls := AnyChar | NotNewline | Space.

(** [\s] on a [str] pattern is [str.isspace] of the character. *)
Definition is_space (c : char) : bool :=
  ((9 <=? c) && (c <=? 13) || (28 <=? c) && (c <=? 32)
   || (c =? 133) || (c =? 160) || (c =? 5760)
   || (8192 <=? c) && (c <=? 8202)
   || (c =? 8232) || (c =? 8233) || (c =? 8239) || (c =? 8287)
   || (c =? 12288))%N.

Definition in_cls (k : cls) (c : char) : bool :=
  match k with
  | AnyChar => true
  | NotNewline => negb (c =? 10)%N
  | Space => is_space c
  end.

Inductive mode := Greedy | Lazy.

(** Pattern syntax: a literal run of characters, [c*] / [c*?] over a class,
    concatenation, and a numbered capture group. *)
Inductive regex :=
| Lit (l : str)
| Star (m : mode) (c : cls)
| Cat (r1 r2 : regex)
| Grp (n : nat) (r : regex).

(** Captured groups, most recent binding first. *)
Definition env := list (nat * str).

Fixpoint lookup (e : env) (n : nat) : str :=
  match e with
  | [] => []
  | (k, v) :: e' => if Nat.eqb k n then v else lookup e' n
  end.

(** What was consumed from [s] when [rest] is what remains of it. *)
Definition consumed (s rest : str) : str :=
  firstn (length s - length rest) s.

(** The matcher is written in continuation-passing style: [k] is the rest
    of the pattern, and returning [None] makes the caller backtrack. *)
Definition result := option (str * env).

(** [c*?]: try the continuation first, consume one more character only
    when it fails. *)
Fixpoint star_lazy (c : cls) (s : str) (k : str -> result) : result :=
  match k s with
  | Some r => Some r
  | None =>
      match s with
      | ch :: t => if in_cls c ch then star_lazy c t k else None
      | [] => None
      end
  end.

(** [c*]: consume as much as possible, give characters back one by one. *)
Fixpoint star_greedy (c : cls) (s : str) (k : str -> result) : result :=
  match s with
  | ch :: t =>
      if in_cls c ch then
        match star_greedy c t k with
        | Some r => Some r
        | None => k s
        end
      else k s
  | [] => k s
  end.

Fixpoint rmatch (r : regex) (s : str) (e : env)
         (k : str -> env -> result) : result :=
  match r with
  | Lit l =>
      match strip_prefix l s with
      | Some rest => k rest e
      | None => None
      end
  | Star Lazy c => star_lazy c s (fun rest => k rest e)
  | Star Greedy c => star_greedy c s (fun rest => k rest e)
  | Cat r1 r2 => rmatch r1 s e (fun rest e' => rmatch r2 rest e' k)
  | Grp n r1 =>
      rmatch r1 s e
        (fun rest e' =>
           k rest ((n, consumed s rest) :: e'))
  end.

(** A match object: [m.group(0)] and the numbered groups. *)
Record Match := mkMatch { whole : str; caps : env }.

Definition group (m : Match) (n : nat) : str :=
  match n with
  | 0 => whole m
  | _ => lookup (caps m) n
  end.

(** Match at the head of [s].  With [adv] set the match must be non-empty
    (the engine's must-advance flag after an empty match). *)
Definition match_here (r : regex) (s : str) (adv : bool) : result :=
  rmatch r s []
    (fun rest e =>
       if adv && (length rest =? length s) then None else Some (rest, e)).

(** [pattern.search]: the leftmost position with a match.  Returns the text
    before the match, the match, and the text after it.  The must-advance
    flag only constrains a match at the very first position. *)
Fixpoint search (r : regex) (s : str) (adv : bool)
  : option (str * Match * str) :=
  match match_here r s adv with
  | Some (rest, e) =>
      Some ([], mkMatch (consumed s rest) e, rest)
  | None =>
      match s with
      | [] => None
      | c :: t =>
          match search r t false with
          | Some (pre, m, rest) => Some (c :: pre, m, rest)
          | None => None
          end
      end
  end.

(** [re.sub(pattern, repl, s)] with a callable [repl]: scan left to right,
    replacing each match found after the end of the previous one.  After an
    empty match the scan resumes at the same place but must advance.
    [2 * length s + 2] restarts always suffice. *)
Fixpoint sub_go (fuel : nat) (r : regex) (repl : Match -> str)
         (s : str) (adv : bool) : str :=
  match fuel with
  | 0 => s
  | S n =>
      match search r s adv with
      | None => s
      | Some (pre, m, rest) =>
          pre ++ repl m ++
          sub_go n r repl rest (match whole m with [] => true | _ => false end)
      end
  end.

Definition re_sub (r : regex) (repl : Match -> str) (s : str) : str :=
  sub_go (2 * length s + 2) r repl s false.

(** ** Patterns as Python writes them *)

(** The text of a pattern in Python's syntax, flags apart: a newline is
    written [\n], the characters [{ } ( ) [ ] .] are escaped, a group is
    parenthesised.  It is used to compare the patterns below with the
    source. *)
Definition backslash : str := [92%N].

Definition escaped (c : char) : bool := existsb (N.eqb c) (lit "{}()[].").

Fixpoint lit_text (l : str) : str :=
  match l with
  | [] => []
  | c :: t =>
      (if (c =? 10)%N then backslash ++ lit "n"
       else if escaped c then backslash ++ [c]
       else [c]) ++ lit_text t
  end.

Definition cls_text (c : cls) : str :=
  match c with
  | AnyChar | NotNewline => lit "."
  | Space => backslash ++ lit "s"
  end.

Fixpoint pattern_text (r : regex) : str :=
  match r with
  | Lit l => lit_text l
  | Star Greedy c => cls_text c ++ lit "*"
  | Star Lazy c => cls_text c ++ lit "*?"
  | Cat r1 r2 => pattern_text r1 ++ pattern_text r2
  | Grp _ r1 => lit "(" ++ pattern_text r1 ++ lit ")"
  end.

(** The numbers of the groups, in the order of their opening
    parentheses. *)
Fixpoint group_numbers (r : regex) : list nat :=
  match r with
  | Lit _ | Star _ _ => []
  | Cat r1 r2 => group_numbers r1 ++ group_numbers r2
  | Grp n r1 => n :: group_numbers r1
  end.

(** The classes the dots of a pattern stand for: [AnyChar] under
    [re.DOTALL], [NotNewline] without the flag. *)
Fixpoint dots (r : regex) : list cls :=
  match r with
  | Lit _ => []
  | Star _ Space => []
  | Star _ c => [c]
  | Cat r1 r2 => dots r1 ++ dots r2
  | Grp _ r1 => dots r1
  end.

(** ** Replacement templates *)

(** A replacement string, as [re.sub] reads it: literal text and group
    references. *)
Inductive titem :=
| TLit (l : str)
| TGroup (n : nat).

Definition item (i : titem) (m : Match) : str :=
  match i with
  | TLit l => l
  | TGroup n => group m n
  end.

(** [match.expand(template)] *)
Fixpoint expand (t : list titem) (m : Match) : str :=
  match t with
  | [] => []
  | [i] => item i m
  | i :: t' => item i m ++ expand t' m
  end.

(** The template in Python's syntax: a newline is written [\n] and group
    [n] is written with a backslash and its digit. *)
Fixpoint plain_text (l : str) : str :=
  match l with
  | [] => []
  | c :: t => (if (c =? 10)%N then backslash ++ lit "n" else [c]) ++ plain_text t
  end.

Fixpoint template_text (t : list titem) : str :=
  match t with
  | [] => []
  | TLit l :: t' => plain_text l ++ template_text t'
  | TGroup n :: t' => backslash ++ [N.of_nat (48 + n)] ++ template_text t'
  end.

(* ================================================================== *)
(** * The script *)
(* ================================================================== *)

(** Concatenation of pattern items, in source order. *)
Fixpoint seq_re (rs : list regex) : regex :=
  match rs with
  | [] => Lit []
  | [r] => r
  | r :: rs' => Cat r (seq_re rs')
  end.

(** ** Stage 1: the [Screenshot] struct *)

(** [(pub struct Screenshot \{.*?pub timestamp: u64,)(\n\})], DOTALL *)
Definition struct_open : str := lit "pub struct Screenshot {".
Definition struct_last : str := lit "pub timestamp: u64,".
Definition brace : str := lit "}".
Definition close_brace : str := nl ++ brace.

Definition struct_pattern : regex :=
  Cat (Grp 1 (seq_re [Lit struct_open; Star Lazy AnyChar; Lit struct_last]))
      (Grp 2 (Lit close_brace)).

(** Template [\1\n    pub tags: Vec<String>,\2] *)
Definition tags_decl : str := nl ++ lit "    pub tags: Vec<String>,".

Definition struct_template : list titem :=
  [TGroup 1; TLit tags_decl; TGroup 2].

Definition struct_repl (m : Match) : str := expand struct_template m.

Definition stage_struct (content : str) : str :=
  re_sub struct_pattern struct_repl content.

(** ** Stage 2: [get_screenshots] *)

Definition header : str :=
  lit "pub fn get_screenshots(game_exe: String) -> Result<Vec<Screenshot>, String> {".

(** [(pub fn get_screenshots\(...\) -> ... \{)(.*?)(\n\})], DOTALL *)
Definition get_screenshots_pattern : regex :=
  seq_re [Grp 1 (Lit header); Grp 2 (Star Lazy AnyChar); Grp 3 (Lit close_brace)].

Definition injection : str :=
  nl ++
  ln "    let dir = screenshots_dir(&game_exe);" ++
  ln "    if !dir.exists() {" ++
  ln "        return Ok(vec![]);" ++
  ln "    }" ++
  ln "" ++
  lit "    let meta_path = dir.join(" ++ dq ++ lit "tags.json" ++ dq ++ ln ");" ++
  ln "    let all_tags: std::collections::HashMap<String, Vec<String>> = if meta_path.exists() {" ++
  ln "        let content = std::fs::read_to_string(&meta_path).map_err(|e| e.to_string())?;" ++
  ln "        serde_json::from_str(&content).unwrap_or_default()" ++
  ln "    } else {" ++
  ln "        std::collections::HashMap::new()" ++
  ln "    };".

(** The directory guard:
    [let dir = screenshots_dir\(&game_exe\);\s*if !dir\.exists\(\) \{\s*return Ok\(vec!\[\]\);\s*\}] *)
Definition guard_let : str := lit "let dir = screenshots_dir(&game_exe);".
Definition guard_if : str := lit "if !dir.exists() {".
Definition guard_return : str := lit "return Ok(vec![]);".

Definition guard_pattern : regex :=
  seq_re [Lit guard_let; Star Greedy Space; Lit guard_if; Star Greedy Space;
          Lit guard_return; Star Greedy Space; Lit brace].

(** The construction site, DOTALL, group 1 being the [\s*]:
    [Screenshot \{.*?filename,.*?timestamp,( \s* )\}] *)
Definition construction_open : str := lit "Screenshot {".
Definition filename_field : str := lit "filename,".
Definition timestamp_field : str := lit "timestamp,".

Definition construction_pattern : regex :=
  seq_re [Lit construction_open; Star Lazy AnyChar; Lit filename_field;
          Star Lazy AnyChar; Lit timestamp_field; Grp 1 (Star Greedy Space);
          Lit brace].

(** The template of the construction rewrite up to its [\1]. *)
Definition tags_lookup : str :=
  lit "let tags = all_tags.get(&filename).cloned().unwrap_or_default();".

Definition construction_fields : str :=
  nl ++ lit "            Screenshot {" ++
  nl ++ lit "                path: path_str," ++
  nl ++ lit "                filename," ++
  nl ++ lit "                timestamp," ++
  nl ++ lit "                tags,".

Definition construction_template : list titem :=
  [TLit (tags_lookup ++ construction_fields); TGroup 1; TLit brace].

Definition construction_repl (m : Match) : str :=
  expand construction_template m.

(** The two passes over the body.  [injection] is passed to [re.sub] as a
    template; it has no backslash, so it expands to itself whatever the
    match. *)
Definition pass_guard (body : str) : str :=
  re_sub guard_pattern (fun _ => injection) body.

Definition pass_construction (body : str) : str :=
  re_sub construction_pattern construction_repl body.

Definition replace_get_screenshots (m : Match) : str :=
  let header := group m 1 in
  let body := group m 2 in
  let footer := group m 3 in
  let new_body := pass_guard body in
  let new_body := pass_construction new_body in
  header ++ new_body ++ footer.

Definition stage_get_screenshots (content : str) : str :=
  re_sub get_screenshots_pattern replace_get_screenshots content.

(** ** Stage 3: the [save_screenshot_tags] command *)

Definition save_cmd : str :=
  nl ++
  ln "#[tauri::command]" ++
  ln "pub fn save_screenshot_tags(game_exe: String, screenshot_name: String, tags: Vec<String>) -> Result<(), String> {" ++
  ln "    let dir = screenshots_dir(&game_exe);" ++
  ln "    if !dir.exists() {" ++
  lit "        return Err(" ++ dq ++ lit "Screenshots directory not found" ++ dq ++ ln ".into());" ++
  ln "    }" ++
  ln "" ++
  lit "    let meta_path = dir.join(" ++ dq ++ lit "tags.json" ++ dq ++ ln ");" ++
  ln "    let mut all_tags: std::collections::HashMap<String, Vec<String>> = if meta_path.exists() {" ++
  ln "        let content = std::fs::read_to_string(&meta_path).map_err(|e| e.to_string())?;" ++
  ln "        serde_json::from_str(&content).unwrap_or_default()" ++
  ln "    } else {" ++
  ln "        std::collections::HashMap::new()" ++
  ln "    };" ++
  ln "" ++
  ln "    all_tags.insert(screenshot_name, tags);" ++
  ln "" ++
  ln "    let content = serde_json::to_string_pretty(&all_tags).map_err(|e| e.to_string())?;" ++
  ln "    std::fs::write(&meta_path, content).map_err(|e| e.to_string())?;" ++
  ln "    Ok(())" ++
  ln "}".

(** The presence guard's marker and the anchor the command goes before. *)
Definition marker : str := lit "pub fn save_screenshot_tags".
Definition anchor : str :=
  ln "#[tauri::command]" ++ lit "pub fn open_screenshots_folder".

Definition stage_save_cmd (content : str) : str :=
  if negb (contains marker content)
  then str_replace anchor (save_cmd ++ nl ++ anchor) content
  else content.

(** ** Stage 4: the other construction sites *)

Definition timestamp_now : str := lit "timestamp: now,".
Definition tags_default : str := nl ++ lit "        tags: vec![],".

Definition fix_other_screenshots (m : Match) : str :=
  str_replace timestamp_now (timestamp_now ++ tags_default) (group m 0).

(** [Ok\(Screenshot \{.*?timestamp: now,.*?\}\)], DOTALL *)
Definition site_open : str := lit "Ok(Screenshot {".
Definition site_close : str := lit "})".

Definition site_pattern : regex :=
  seq_re [Lit site_open; Star Lazy AnyChar; Lit timestamp_now;
          Star Lazy AnyChar; Lit site_close].

Definition stage_sites (content : str) : str :=
  re_sub site_pattern fix_other_screenshots content.

(** The last substitution, for the win module, has no flags and replaces
    each match by itself:
    [Ok\(Screenshot \{.*?timestamp: now,\n            tags: vec!\[\],.*?\}\)] *)
Definition win_pattern : regex :=
  seq_re [Lit site_open; Star Lazy NotNewline;
          Lit (timestamp_now ++ nl ++ lit "            tags: vec![],");
          Star Lazy NotNewline; Lit site_close].

Definition stage_win (content : str) : str :=
  re_sub win_pattern (fun m => group m 0) content.

(** ** The whole transformation *)

(** The buffer as it travels through the script, between reading and
    writing the file.  The closing [if ...: pass] does nothing. *)
Definition transform (content : str) : str :=
  let content := stage_struct content in
  let content := stage_get_screenshots content in
  let content := stage_save_cmd content in
  let content := stage_sites content in
  let content := stage_win content in
  content.

(** The file the script works on: what opening it for reading yields
    ([None] when the open or the UTF-8 decoding raises) and whether it can
    be opened for writing. *)
Record file := mkFile { readable : option str; writable : bool }.

(** Outcome of a run: an exception, or the content written back. *)
Inductive outcome :=
| Raised
| Written (content : str).

Definition run (f : file) : outcome :=
  match readable f with
  | None => Raised
  | Some content =>
      let content := transform content in
      if writable f then Written content else Raised
  end.

(** ** The file as text *)

(** The file is opened in text mode with the default [newline=None].  On
    reading, the decoded text goes through universal-newlines translation:
    a carriage return followed by a line feed, and a carriage return alone,
    both become one line feed. *)
Definition cr : char := 13%N.
Definition lf : char := 10%N.

Fixpoint universal_newlines (s : str) : str :=
  match s with
  | [] => []
  | c :: t =>
      if (c =? cr)%N then
        lf :: match t with
              | d :: t' =>
                  if (d =? lf)%N then universal_newlines t'
                  else universal_newlines t
              | [] => []
              end
      else c :: universal_newlines t
  end.

(** On writing, every line feed becomes [os.linesep]; the other characters
    are written as they are. *)
Fixpoint write_newlines (linesep : str) (s : str) : str :=
  match s with
  | [] => []
  | c :: t => (if (c =? lf)%N then linesep else [c]) ++ write_newlines linesep t
  end.

(** The two values of [os.linesep]. *)
Definition posix_linesep : str := [lf].
Definition windows_linesep : str := [cr; lf].

(** A run that succeeds, from the decoded text of the file to the text
    that is encoded and written back. *)
Definition run_text (linesep : str) (decoded : str) : str :=
  write_newlines linesep (transform (universal_newlines decoded)).

(* ================================================================== *)
(** * A sample target file *)
(* ================================================================== *)

(** A small [screenshot.rs] of the expected shape: the struct, the read
    command with its directory guard and one construction, the anchor
    command, and a capture function with a construction site. *)
Definition screenshot_rs : str :=
  ln "use serde::Serialize;" ++
  ln "" ++
  ln "#[derive(Serialize)]" ++
  ln "pub struct Screenshot {" ++
  ln "    pub path: String," ++
  ln "    pub filename: String," ++
  ln "    pub timestamp: u64," ++
  ln "}" ++
  ln "" ++
  ln "#[tauri::command]" ++
  ln "pub fn get_screenshots(game_exe: String) -> Result<Vec<Screenshot>, String> {" ++
  ln "    let dir = screenshots_dir(&game_exe);" ++
  ln "    if !dir.exists() {" ++
  ln "        return Ok(vec![]);" ++
  ln "    }" ++
  ln "    let shots = list_files(&dir)" ++
  ln "        .map(|(path_str, filename, timestamp)| {" ++
  ln "            Screenshot {" ++
  ln "                path: path_str," ++
  ln "                filename," ++
  ln "                timestamp," ++
  ln "            }" ++
  ln "        })" ++
  ln "        .collect();" ++
  ln "    Ok(shots)" ++
  ln "}" ++
  ln "" ++
  ln "#[tauri::command]" ++
  ln "pub fn open_screenshots_folder(game_exe: String) -> Result<(), String> {" ++
  ln "    open_dir(screenshots_dir(&game_exe))" ++
  ln "}" ++
  ln "" ++
  ln "pub fn capture(game_exe: String) -> Result<Screenshot, String> {" ++
  ln "    let (path_str, filename, now) = grab(&game_exe)?;" ++
  ln "    Ok(Screenshot {" ++
  ln "        path: path_str," ++
  ln "        filename," ++
  ln "        timestamp: now," ++
  ln "    })" ++
  ln "}".

(* ================================================================== *)
(** * Vocabulary of the statements *)
(* ================================================================== *)

(** ** Where a text occurs *)

(** [fresh sub pre]: in [pre ++ sub], the first occurrence of [sub] is the
    one at the end; that is, [sub] does not occur earlier than right after
    [pre]. *)
Definition fresh (sub pre : str) : Prop :=
  find sub (pre ++ sub) = Some (length pre).

(** No occurrence of [b] starts inside [u], whatever follows [u]. *)
Definition absent_before (b u : str) : Prop :=
  forall v, find b (u ++ v) = option_map (Nat.add (length u)) (find b v).

(** [b] and [w] agree as far as both go. *)
Definition compatible (b w : str) : bool :=
  starts_with b w || starts_with w b.

(** The three checks below are run on the fixed texts of the script. *)

(** No occurrence of [b] starts inside [u], whatever follows [u]. *)
Fixpoint no_start (b u : str) : bool :=
  match u with
  | [] => true
  | _ :: t => negb (compatible b u) && no_start b t
  end.

(** No non-empty suffix of [b] agrees with the front of [u]. *)
Fixpoint no_tail (b u : str) : bool :=
  match b with
  | [] => true
  | _ :: b' => negb (compatible b u) && no_tail b' u
  end.

(** No occurrence of [b] that starts before [u] reaches into [u]. *)
Definition no_cross (b u : str) : bool :=
  match b with
  | [] | [_] => true
  | _ :: b' => no_tail b' u
  end.

(** No occurrence of [b] that starts in [u] runs past the end of [u]. *)
Fixpoint no_exit (b u : str) : bool :=
  match u with
  | [] => true
  | _ :: t =>
      negb (starts_with u b && (length u <? length b)) && no_exit b t
  end.

(** ** What the engine reports *)

(** [matches r w e e']: the pattern [r] can consume exactly [w], turning the
    captures [e] into [e'].  The matcher only ever reports such matches. *)
Inductive matches : regex -> str -> env -> env -> Prop :=
| M_Lit l e : matches (Lit l) l e e
| M_Star m c w e : forallb (in_cls c) w = true -> matches (Star m c) w e e
| M_Cat r1 r2 w1 w2 e e1 e2 :
    matches r1 w1 e e1 -> matches r2 w2 e1 e2 ->
    matches (Cat r1 r2) (w1 ++ w2) e e2
| M_Grp n r w e e' : matches r w e e' -> matches (Grp n r) w e ((n, w) :: e').

(** The literal a pattern has to start with. *)
Fixpoint leading (r : regex) : str :=
  match r with
  | Lit l => l
  | Star _ _ => []
  | Cat r1 _ => leading r1
  | Grp _ r1 => leading r1
  end.

(** A pattern that cannot match the empty string. *)
Definition never_empty (r : regex) : Prop :=
  forall e e', ~ matches r [] e e'.

(** What the substitution loop still has to go through. *)
Definition work (s : str) (adv : bool) : nat :=
  2 * length s + (if adv then 0 else 1).

(** A search result moved to the right by the text [u]. *)
Definition shift (u : str) (x : option (str * Match * str)) :=
  match x with
  | Some (pre, m, rest) => Some (u ++ pre, m, rest)
  | None => None
  end.

(** ** The texts the stages read and write *)

(** A run of whitespace, and a text that starts with something else. *)
Definition all_space (w : str) : Prop := forallb is_space w = true.

Definition starts_nonspace (b : str) : Prop :=
  match b with
  | c :: _ => is_space c = false
  | [] => False
  end.

(** The guard clause as its pattern reads it: three literals with
    whitespace between them and before the closing brace. *)
Definition guard_text (w1 w2 w3 : str) : str :=
  guard_let ++ w1 ++ guard_if ++ w2 ++ guard_return ++ w3 ++ brace.

(** A construction as its pattern reads it: [x] stands between
    [Screenshot {] and [filename,], [y] between [filename,] and
    [timestamp,], and [ws] is the whitespace before the closing brace. *)
Definition construction (x y ws : str) : str :=
  construction_open ++ x ++ filename_field ++ y ++ timestamp_field ++
  ws ++ brace.

(** What [construction_repl] writes: the lookup, then the construction
    with its four fields, the last being [tags]. *)
Definition rewritten_construction (ws : str) : str :=
  tags_lookup ++ construction_fields ++ ws ++ brace.

(** The fixed part of it: the lookup and the four fields. *)
Definition rewrite_head : str := tags_lookup ++ construction_fields.

(** What [fix_other_screenshots] returns for a site. *)
Definition fixed_site (x y : str) : str :=
  site_open ++ x ++ timestamp_now ++ tags_default ++
  str_replace timestamp_now (timestamp_now ++ tags_default) (y ++ site_close).

(** A buffer cut at its construction sites: each site comes with the text
    before it, the text between [Ok(Screenshot {] and [timestamp: now,],
    and the text between that field and the closing [})]. *)
Definition site : Type := str * str * str.

Definition is_site (s : site) : Prop :=
  let '(pre, x, y) := s in
  fresh site_open pre /\ fresh timestamp_now x /\ fresh site_close y.

(** The buffer made of the sites [l] and the text [tail] after the last
    one, before and after the fourth stage. *)
Fixpoint with_sites (l : list site) (tail : str) : str :=
  match l with
  | [] => tail
  | (pre, x, y) :: l' =>
      pre ++ site_open ++ x ++ timestamp_now ++ y ++ site_close ++
      with_sites l' tail
  end.

Fixpoint with_fixed_sites (l : list site) (tail : str) : str :=
  match l with
  | [] => tail
  | (pre, x, y) :: l' => pre ++ fixed_site x y ++ with_fixed_sites l' tail
  end.

(** The text stage 3 puts before each anchor. *)
Definition inserted_cmd : str := save_cmd ++ nl.

(** The inserted command with the anchor after it. *)
Definition cmd_before_anchor : str := save_cmd ++ nl ++ anchor.

(** The injected text is an indent, the guard clause, and the code that
    loads the sidecar file. *)
Definition inj_head : str := nl ++ lit "    ".

Definition sidecar_loading : str :=
  nl ++
  ln "" ++
  lit "    let meta_path = dir.join(" ++ dq ++ lit "tags.json" ++ dq ++ ln ");" ++
  ln "    let all_tags: std::collections::HashMap<String, Vec<String>> = if meta_path.exists() {" ++
  ln "        let content = std::fs::read_to_string(&meta_path).map_err(|e| e.to_string())?;" ++
  ln "        serde_json::from_str(&content).unwrap_or_default()" ++
  ln "    } else {" ++
  ln "        std::collections::HashMap::new()" ++
  ln "    };".

(** What a second injection leaves where the first one stood. *)
Definition reinjected : str := inj_head ++ injection ++ sidecar_loading.

(** ** How an edit changes the number of occurrences *)

(** A relation between a text and what replaces it that holds piecewise. *)
Record congruence (Q : str -> str -> Prop) : Prop := {
  congr_refl : forall s, Q s s;
  congr_app : forall s1 s1' s2 s2',
      Q s1 s1' -> Q s2 s2' -> Q (s1 ++ s2) (s1' ++ s2')
}.

(** Putting [s'] in place of [s] adds at most [n] occurrences of [P],
    whatever stands around. *)
Definition adds_at_most (P : str) (n : nat) (s s' : str) : Prop :=
  forall u v,
    occurrences P (u ++ s' ++ v) <= occurrences P (u ++ s ++ v) + n.

(** Putting [s'] in place of [s] keeps the number of occurrences of [P]. *)
Definition keeps (P : str) (s s' : str) : Prop :=
  forall u v, occurrences P (u ++ s' ++ v) = occurrences P (u ++ s ++ v).

(** ** Sample texts *)

(** A capture function on its own. *)
Definition capture_rs : str :=
  ln "    Ok(Screenshot {" ++
  ln "        path: path_str," ++
  ln "        filename," ++
  ln "        timestamp: now," ++
  ln "    })".

(** The site of [capture_rs]. *)
Definition capture_sites : list site :=
  [(lit "    ",
    nl ++ ln "        path: path_str," ++ ln "        filename," ++
    lit "        ",
    nl ++ lit "    ")].

(** A file with none of the patterns. *)
Definition plain_rs : str :=
  ln "pub fn screenshots_dir(game_exe: &str) -> PathBuf {" ++
  ln "    PathBuf::from(game_exe).with_extension(String::new())" ++
  ln "}".

(** A construction whose path field is an expression of its own. *)
Definition body_other_path : str :=
  nl ++
  ln "            Screenshot {" ++
  ln "                path: entry.path().display().to_string()," ++
  ln "                filename," ++
  ln "                timestamp," ++
  lit "            }".

(** A body in which a [Screenshot {] comes before the guard. *)
Definition body_early_open : str :=
  nl ++
  ln "    let none = Screenshot { path: String::new(), ..Default::default() };" ++
  ln "    let dir = screenshots_dir(&game_exe);" ++
  ln "    if !dir.exists() {" ++
  ln "        return Ok(vec![]);" ++
  ln "    }" ++
  ln "    let shot = Screenshot {" ++
  ln "        path: path_str," ++
  ln "        filename," ++
  ln "        timestamp," ++
  lit "    };".

(** A buffer with two anchors. *)
Definition two_anchors : str :=
  ln "#[tauri::command]" ++
  ln "pub fn open_screenshots_folder(game_exe: String) {}" ++
  ln "mod win {" ++
  ln "#[tauri::command]" ++
  ln "pub fn open_screenshots_folder(game_exe: String) {}" ++
  ln "}".

(** The struct with fields [a], [b] and [timestamp], cut at its opening
    line and its last field. *)
Definition minimal_mid : str :=
  nl ++ ln "    pub a: String," ++ ln "    pub b: String," ++ lit "    ".

(** The sample file cut around [get_screenshots]: what precedes the
    header, the parts of the body, and what follows the function. *)
Definition rs_pre : str :=
  ln "use serde::Serialize;" ++
  ln "" ++
  ln "#[derive(Serialize)]" ++
  ln "pub struct Screenshot {" ++
  ln "    pub path: String," ++
  ln "    pub filename: String," ++
  ln "    pub timestamp: u64," ++
  ln "}" ++
  ln "" ++
  ln "#[tauri::command]".

(** The same after the struct stage. *)
Definition rs_pre_tagged : str :=
  ln "use serde::Serialize;" ++
  ln "" ++
  ln "#[derive(Serialize)]" ++
  ln "pub struct Screenshot {" ++
  ln "    pub path: String," ++
  ln "    pub filename: String," ++
  ln "    pub timestamp: u64," ++
  ln "    pub tags: Vec<String>," ++
  ln "}" ++
  ln "" ++
  ln "#[tauri::command]".

Definition rs_b1 : str :=
  nl ++
  ln "    let shots = list_files(&dir)" ++
  ln "        .map(|(path_str, filename, timestamp)| {" ++
  lit "            ".

Definition rs_x : str :=
  nl ++ ln "                path: path_str," ++ lit "                ".

Definition rs_y : str := nl ++ lit "                ".

Definition rs_ws : str := nl ++ lit "            ".

Definition rs_b2 : str :=
  nl ++ ln "        })" ++ ln "        .collect();" ++ lit "    Ok(shots)".

Definition rs_post : str :=
  nl ++
  ln "" ++
  ln "#[tauri::command]" ++
  ln "pub fn open_screenshots_folder(game_exe: String) -> Result<(), String> {" ++
  ln "    open_dir(screenshots_dir(&game_exe))" ++
  ln "}" ++
  ln "" ++
  ln "pub fn capture(game_exe: String) -> Result<Screenshot, String> {" ++
  ln "    let (path_str, filename, now) = grab(&game_exe)?;" ++
  ln "    Ok(Screenshot {" ++
  ln "        path: path_str," ++
  ln "        filename," ++
  ln "        timestamp: now," ++
  ln "    })" ++
  ln "}".

(** The body up to its construction: the guard and what follows it. *)
Definition rs_guarded : str :=
  inj_head ++ guard_text inj_head (nl ++ lit "        ") inj_head ++ rs_b1.

Definition rs_body : str :=
  inj_head ++ guard_text inj_head (nl ++ lit "        ") inj_head ++
  rs_b1 ++ construction rs_x rs_y rs_ws ++ rs_b2.

(** ** Further vocabulary *)

(** [subseq s t]: [t] is [s] with characters put in; nothing of [s] is
    lost and its order is kept. *)
Inductive subseq : str -> str -> Prop :=
| subseq_nil : subseq [] []
| subseq_keep c s t : subseq s t -> subseq (c :: s) (c :: t)
| subseq_skip c s t : subseq s t -> subseq s (c :: t).

(** The end of the struct as its pattern reads it, and the field with its
    default as stage 4 writes it. *)
Definition struct_end : str := struct_last ++ close_brace.

Definition struct_head : str := struct_last ++ nl.

(** The rewritten construction around its [timestamp,]: the lookup and
    the fields before it, and the line of the [tags] field after it. *)
Definition rewrite_before : str :=
  tags_lookup ++
  nl ++ lit "            Screenshot {" ++
  nl ++ lit "                path: path_str," ++
  nl ++ lit "                filename," ++
  nl ++ lit "                ".

Definition tags_field_line : str := nl ++ lit "                tags,".

(** A site with one [timestamp: now,] only. *)
Definition single_field_site (s : site) : Prop :=
  let '(pre, x, y) := s in
  is_site s /\ contains timestamp_now (y ++ site_close) = false.

(** The site after [n] runs: [n] default lines stand after its field. *)
Definition defaulted (n : nat) (s : site) : site :=
  let '(pre, x, y) := s in (pre, x, concat (repeat tags_default n) ++ y).

(** A site with all its fields: the text before the site, the texts that
    stand before each of its fields (the first one right after the
    opening), and the text between the last field and the closing. *)
Definition fsite : Type := str * list str * str.

(** The fields of a site, each followed by [inserted]. *)
Definition fields_text (field inserted : str) (fs : list str) : str :=
  concat (map (fun f => f ++ field ++ inserted) fs).

(** The buffer made of the sites [l] and the text [tail] after the last
    one, for an opening, a field, a text put after each field and a
    closing. *)
Fixpoint sites_text (opening field inserted closing : str)
         (l : list fsite) (tail : str) : str :=
  match l with
  | [] => tail
  | (pre, fs, z) :: l' =>
      pre ++ opening ++ fields_text field inserted fs ++ z ++ closing ++
      sites_text opening field inserted closing l' tail
  end.

(** The cut is the one the scan makes: the opening is the first one after
    the previous site, each field is the first one after the previous
    field, no field stands in the last text, and the closing is the first
    one after the first field. *)
Definition is_fsite (opening field closing : str) (s : fsite) : Prop :=
  let '(pre, fs, z) := s in
  fs <> [] /\ fresh opening pre /\ Forall (fresh field) fs /\
  contains field (z ++ closing) = false /\
  fresh closing (fields_text field [] (tl fs) ++ z).

(** Two definitions of the struct, one per platform. *)
Definition two_structs : str :=
  ln "#[cfg(windows)]" ++
  ln "pub struct Screenshot {" ++
  ln "    pub path: String," ++
  ln "    pub timestamp: u64," ++
  ln "}" ++
  ln "#[cfg(not(windows))]" ++
  ln "pub struct Screenshot {" ++
  ln "    pub path: String," ++
  ln "    pub timestamp: u64," ++
  ln "}".

(** A site whose path field builds a value with a [timestamp: now,] of
    its own. *)
Definition inner_meta_rs : str :=
  ln "    Ok(Screenshot {" ++
  ln "        path: write_meta(&Meta {" ++
  ln "            timestamp: now," ++
  ln "        })?," ++
  ln "        filename," ++
  ln "        timestamp: now," ++
  ln "    })".

(** The sites of [capture_rs], with their fields. *)
Definition capture_fsites : list fsite :=
  [(lit "    ",
    [nl ++ ln "        path: path_str," ++ ln "        filename," ++
     lit "        "],
    nl ++ lit "    ")].

(** [followed_by L P s]: [L] occurs in [s] and [P] holds of what comes
    after that occurrence. *)
Definition followed_by (L : str) (P : str -> Prop) (s : str) : Prop :=
  exists a r, s = a ++ L ++ r /\ P r.

(** Whitespace, then [}]. *)
Definition closes (s : str) : Prop :=
  exists ws b, s = ws ++ brace ++ b /\ all_space ws.

(** A construction somewhere in [s], as its pattern reads it:
    [Screenshot {], later [filename,], later [timestamp,] with whitespace
    and [}] right after it. *)
Definition has_construction (s : str) : Prop :=
  followed_by construction_open
    (followed_by filename_field (followed_by timestamp_field closes)) s.

(** [P] survives putting [i] in place of [g], whatever stands around. *)
Definition stable (g i : str) (P : str -> Prop) : Prop :=
  forall u v, P (u ++ g ++ v) -> P (u ++ i ++ v).

(** The same edit seen as a relation between a text and its replacement. *)
Definition carries (P : str -> Prop) (s s' : str) : Prop :=
  forall u v, P (u ++ s ++ v) -> P (u ++ s' ++ v).

(** A text without its whitespace. *)
Definition nonspace (s : str) : str :=
  filter (fun c => negb (is_space c)) s.

(** The sidecar-loading code without its last newline. *)
Definition sidecar_init : str :=
  nl ++
  ln "" ++
  lit "    let meta_path = dir.join(" ++ dq ++ lit "tags.json" ++ dq ++ ln ");" ++
  ln "    let all_tags: std::collections::HashMap<String, Vec<String>> = if meta_path.exists() {" ++
  ln "        let content = std::fs::read_to_string(&meta_path).map_err(|e| e.to_string())?;" ++
  ln "        serde_json::from_str(&content).unwrap_or_default()" ++
  ln "    } else {" ++
  ln "        std::collections::HashMap::new()" ++
  lit "    };".

(** The guard clause as the injected text writes it. *)
Definition injected_guard : str :=
  guard_text (nl ++ lit "    ") (nl ++ lit "        ") (nl ++ lit "    ").

(** The struct definition, before and after the struct stage. *)
Definition struct_text (mid : str) : str :=
  struct_open ++ mid ++ struct_last ++ close_brace.

Definition struct_text_tagged (mid : str) : str :=
  struct_open ++ mid ++ struct_last ++ tags_decl ++ close_brace.

(** The checks of a text [P] against what the first two stages write. *)
Definition apart_from_edits (P : str) : bool :=
  no_cross P tags_decl && no_start P tags_decl &&
  no_cross P injection && no_start P injection &&
  no_cross P rewrite_head && no_start P rewrite_head.

(** The sample file with [body_early_open] as the body of
    [get_screenshots]. *)
Definition early_rs : str :=
  rs_pre ++ header ++ body_early_open ++ close_brace ++ rs_post.

(** The part of the sample file before [get_screenshots], cut at its
    struct. *)
Definition rs_a0 : str :=
  ln "use serde::Serialize;" ++ ln "" ++ ln "#[derive(Serialize)]".

Definition rs_mid : str :=
  nl ++ ln "    pub path: String," ++ ln "    pub filename: String," ++
  lit "    ".

Definition rs_a1 : str := nl ++ ln "" ++ ln "#[tauri::command]".

(** What follows the guard in the body of the sample file. *)
Definition rs_rest : str :=
  rs_b1 ++ construction rs_x rs_y rs_ws ++ rs_b2.

(** [c in s], for a character. *)
Definition mentions (c : char) (s : str) : bool := existsb (N.eqb c) s.

Definition struct_end_tagged : str := struct_last ++ tags_decl ++ close_brace.

Definition timestamp_with_default : str := timestamp_now ++ tags_default.

(* ================================================================== *)
(** * Facts about strings *)
(* ================================================================== *)

Section StringFacts.

Implicit Types p s sub old new pre rest : str.

Lemma strip_prefix_app p rest : strip_prefix p (p ++ rest) = Some rest.
Proof.
  induction p as [|a p IH]; simpl; [reflexivity|].
  now rewrite N.eqb_refl.
Qed.

Lemma strip_prefix_Some p s rest :
  strip_prefix p s = Some rest -> s = p ++ rest.
Proof.
  revert s; induction p as [|a p IH]; intros s H; simpl in *.
  - now inversion H.
  - destruct s as [|b s]; [discriminate|].
    destruct (N.eqb_spec a b) as [->|]; [|discriminate].
    now rewrite (IH _ H).
Qed.

Lemma starts_with_app p rest : starts_with p (p ++ rest) = true.
Proof. unfold starts_with; now rewrite strip_prefix_app. Qed.

Lemma starts_with_true p s :
  starts_with p s = true -> exists rest, s = p ++ rest.
Proof.
  unfold starts_with; destruct (strip_prefix p s) eqn:E; [|discriminate].
  intros _; eexists; eauto using strip_prefix_Some.
Qed.

Lemma starts_with_false_strip p s :
  starts_with p s = false -> strip_prefix p s = None.
Proof. unfold starts_with; now destruct (strip_prefix p s). Qed.

(** Whether [p] starts [s] is decided within the first [length p]
    characters of [s]. *)
Lemma starts_with_long p s rest :
  length p <= length s -> starts_with p (s ++ rest) = starts_with p s.
Proof.
  unfold starts_with; revert s; induction p as [|a p IH]; intros s L.
  - reflexivity.
  - destruct s as [|b s]; simpl in *; [lia|].
    destruct (N.eqb a b); [apply IH; lia | reflexivity].
Qed.

Lemma starts_with_refl p : starts_with p p = true.
Proof. rewrite <- (app_nil_r p) at 2. apply starts_with_app. Qed.

Lemma find_head sub s : starts_with sub s = true -> find sub s = Some 0.
Proof. intros H; destruct s; simpl; now rewrite H. Qed.

Lemma find_nil_l s : find [] s = Some 0.
Proof. now destruct s. Qed.

Lemma find_cons sub c s :
  find sub (c :: s) =
  if starts_with sub (c :: s) then Some 0 else option_map S (find sub s).
Proof. reflexivity. Qed.

Lemma fresh_nil sub : fresh sub [].
Proof.
  unfold fresh; simpl. apply find_head, starts_with_refl.
Qed.

Lemma fresh_cons sub c pre :
  fresh sub (c :: pre) ->
  starts_with sub (c :: pre ++ sub) = false /\ fresh sub pre.
Proof.
  unfold fresh; simpl app; rewrite find_cons.
  destruct (starts_with sub (c :: pre ++ sub)); [discriminate|].
  destruct (find sub (pre ++ sub)); simpl; intros H; inversion H; auto.
Qed.

Lemma fresh_cons_ext sub c pre rest :
  fresh sub (c :: pre) -> starts_with sub (c :: pre ++ sub ++ rest) = false.
Proof.
  intros H; apply fresh_cons in H as [H _].
  change (c :: pre ++ sub ++ rest) with ((c :: pre) ++ sub ++ rest).
  rewrite app_assoc, starts_with_long; [exact H|].
  rewrite length_app; lia.
Qed.

Lemma find_fresh sub pre rest :
  fresh sub pre -> find sub (pre ++ sub ++ rest) = Some (length pre).
Proof.
  induction pre as [|c pre IH]; intros F.
  - simpl. apply find_head, starts_with_app.
  - simpl app; rewrite find_cons, (fresh_cons_ext _ _ _ _ F).
    apply fresh_cons in F as [_ F]. now rewrite (IH F).
Qed.

Lemma find_Some sub s i :
  find sub s = Some i ->
  exists pre rest, s = pre ++ sub ++ rest /\ length pre = i /\ fresh sub pre.
Proof.
  revert i; induction s as [|c s IH]; intros i.
  - simpl. destruct (starts_with sub []) eqn:E; [|discriminate].
    intros H; inversion H; subst.
    apply starts_with_true in E as [rest E].
    exists [], rest; repeat split; auto using fresh_nil.
  - rewrite find_cons. destruct (starts_with sub (c :: s)) eqn:E.
    + intros H; inversion H; subst.
      apply starts_with_true in E as [rest E].
      exists [], rest; repeat split; auto using fresh_nil.
    + destruct (find sub s) as [j|] eqn:F; [|discriminate].
      simpl; intros H; inversion H; subst.
      destruct (IH _ eq_refl) as (pre & rest & -> & L & Fr).
      exists (c :: pre), rest; repeat split; simpl; auto.
      unfold fresh; simpl app; rewrite find_cons.
      replace (starts_with sub (c :: pre ++ sub)) with false.
      * unfold fresh in Fr; now rewrite Fr.
      * symmetry. destruct (starts_with sub (c :: pre ++ sub)) eqn:E'; auto.
        change (c :: pre ++ sub ++ rest) with ((c :: pre) ++ sub ++ rest) in E.
        rewrite app_assoc, starts_with_long in E; [simpl in E; congruence|].
        rewrite length_app; simpl; lia.
Qed.

Lemma contains_false_find sub s : contains sub s = false -> find sub s = None.
Proof. unfold contains; now destruct (find sub s). Qed.

Lemma contains_app_l sub s rest :
  contains sub (s ++ rest) = false -> contains sub s = false.
Proof.
  unfold contains. destruct (find sub s) as [i|] eqn:F; [|reflexivity].
  apply find_Some in F as (pre & r & -> & _ & Fr).
  rewrite <- !app_assoc, (find_fresh _ _ _ Fr). discriminate.
Qed.

Lemma contains_cons sub c s :
  contains sub (c :: s) = false ->
  starts_with sub (c :: s) = false /\ contains sub s = false.
Proof.
  unfold contains; rewrite find_cons.
  destruct (starts_with sub (c :: s)); [discriminate|].
  destruct (find sub s); [discriminate|auto].
Qed.

Lemma contains_app_r sub s rest :
  contains sub (s ++ rest) = false -> contains sub rest = false.
Proof.
  induction s as [|c s IH]; [auto|].
  simpl; intros H; apply contains_cons in H as [_ H]; auto.
Qed.

End StringFacts.

Lemma contains_intro b u r : contains b (u ++ b ++ r) = true.
Proof.
  unfold contains. induction u as [|c u IH]; simpl app.
  - now rewrite (find_head b (b ++ r) (starts_with_app b r)).
  - rewrite find_cons. destruct (starts_with b (c :: u ++ b ++ r)); auto.
    destruct (find b (u ++ b ++ r)); [reflexivity | discriminate].
Qed.

(** ** Occurrences next to a fixed text *)

Section Isolation.

Implicit Types b u w z : str.

Lemma starts_with_app_inv b : forall w z,
  starts_with b (w ++ z) = true -> w = [] \/ compatible b w = true.
Proof.
  unfold compatible, starts_with.
  induction b as [|a b IH]; intros w z H.
  - right. reflexivity.
  - destruct w as [|c w]; [now left|right].
    simpl in *. destruct (N.eqb a c) eqn:E; [|discriminate].
    rewrite N.eqb_sym, E.
    destruct (IH w z H) as [->|C]; [|exact C].
    simpl. destruct (strip_prefix b []); reflexivity.
Qed.

Lemma find_no_start b u z :
  no_start b u = true ->
  find b (u ++ z) = option_map (Nat.add (length u)) (find b z).
Proof.
  induction u as [|c u IH]; intros H.
  - simpl. now destruct (find b z).
  - simpl in H. apply andb_prop in H as [H1 H2].
    simpl app. rewrite find_cons.
    destruct (starts_with b (c :: u ++ z)) eqn:E.
    + destruct (starts_with_app_inv b (c :: u) z E) as [?|C];
        [discriminate | now rewrite C in H1].
    + rewrite (IH H2). now destruct (find b z).
Qed.

Lemma no_tail_reach b : forall w u z,
  u <> [] -> no_tail b u = true ->
  starts_with b (w ++ u ++ z) = true -> starts_with b w = true.
Proof.
  induction b as [|a b IH]; intros w u z U H S.
  - reflexivity.
  - cbn [no_tail] in H. apply andb_prop in H as [H1 H2].
    destruct w as [|c w].
    + simpl in S. destruct (starts_with_app_inv _ _ _ S) as [?|C];
        [contradiction | now rewrite C in H1].
    + unfold starts_with in *. simpl in *.
      destruct (N.eqb a c); [|discriminate].
      apply (IH w u z U H2 S).
Qed.

Lemma no_cross_reach b c w u z :
  u <> [] -> no_cross b u = true ->
  starts_with b ((c :: w) ++ u ++ z) = true ->
  starts_with b (c :: w) = true.
Proof.
  intros U H S. destruct b as [|a b]; [reflexivity|].
  unfold starts_with in *. simpl in *.
  destruct (N.eqb a c); [|discriminate].
  destruct b as [|a' b]; [reflexivity|].
  apply (no_tail_reach (a' :: b) w u z U H S).
Qed.

(** [u] put after a text without [b] brings no occurrence of [b] with
    it. *)
Lemma find_isolated b p u z :
  u <> [] -> no_cross b u = true -> no_start b u = true ->
  contains b p = false ->
  find b (p ++ u ++ z) =
  option_map (Nat.add (length p + length u)) (find b z).
Proof.
  intros U C N; induction p as [|c p IH]; intros H.
  - simpl. apply find_no_start, N.
  - apply contains_cons in H as [H1 H2].
    simpl app. rewrite find_cons.
    destruct (starts_with b (c :: p ++ u ++ z)) eqn:E.
    + apply (no_cross_reach b c p u z U C) in E. congruence.
    + rewrite (IH H2). now destruct (find b z).
Qed.

Lemma fresh_after b u x :
  no_start b u = true -> fresh b x -> fresh b (u ++ x).
Proof.
  unfold fresh; intros N F.
  rewrite <- app_assoc, (find_no_start _ _ _ N), F, length_app. reflexivity.
Qed.

Lemma fresh_isolated b p u x :
  u <> [] -> no_cross b u = true -> no_start b u = true ->
  contains b p = false -> fresh b x -> fresh b (p ++ u ++ x).
Proof.
  unfold fresh; intros U C N H F.
  rewrite <- !app_assoc, (find_isolated _ _ _ _ U C N H), F.
  rewrite !length_app. simpl. f_equal. lia.
Qed.

End Isolation.

(** ** [str.replace] *)

Section ReplaceFacts.

Variables old new : str.
Hypothesis old_not_nil : old <> [].

Lemma skipn_app_exact (a b : str) : skipn (length a) (a ++ b) = b.
Proof. induction a; simpl; auto. Qed.

Lemma firstn_app_exact (a b : str) : firstn (length a) (a ++ b) = a.
Proof. induction a; simpl; f_equal; auto. Qed.

Lemma replace_go_S n s :
  replace_go (S n) old new s =
  match find old s with
  | None => s
  | Some i =>
      firstn i s ++ new ++ replace_go n old new (skipn (i + length old) s)
  end.
Proof. reflexivity. Qed.

Lemma replace_go_fuel : forall n s m,
  length s < n -> length s < m ->
  replace_go n old new s = replace_go m old new s.
Proof.
  induction n as [|n IH]; intros s m Hn Hm; [lia|].
  destruct m as [|m]; [lia|]. rewrite !replace_go_S.
  destruct (find old s) as [i|] eqn:F; [|reflexivity].
  do 2 f_equal.
  apply find_Some in F as (pre & rest & -> & <- & _).
  rewrite <- length_app, app_assoc, skipn_app_exact.
  rewrite !length_app in *.
  destruct old; [congruence|]. simpl in *. apply IH; lia.
Qed.

Lemma str_replace_unfold s :
  str_replace old new s = replace_go (S (length s)) old new s.
Proof. unfold str_replace. destruct old; [congruence|reflexivity]. Qed.

Lemma str_replace_none s : find old s = None -> str_replace old new s = s.
Proof. intros F. now rewrite str_replace_unfold, replace_go_S, F. Qed.

Lemma str_replace_fresh pre rest :
  fresh old pre ->
  str_replace old new (pre ++ old ++ rest) =
  pre ++ new ++ str_replace old new rest.
Proof.
  intros F. rewrite !str_replace_unfold, replace_go_S.
  rewrite (find_fresh _ _ _ F), firstn_app_exact.
  rewrite <- length_app, (app_assoc pre old rest), skipn_app_exact.
  assert (1 <= length old) by (destruct old; [congruence | simpl; lia]).
  do 2 f_equal. apply replace_go_fuel; rewrite ?length_app; lia.
Qed.

End ReplaceFacts.

(* ================================================================== *)
(** * Facts about the engine *)
(* ================================================================== *)

Arguments consumed : simpl never.

(** ** What a match looks like *)

Lemma consumed_app (w rest : str) : consumed (w ++ rest) rest = w.
Proof.
  unfold consumed. rewrite length_app, Nat.add_sub.
  rewrite firstn_app, Nat.sub_diag, firstn_all; simpl. apply app_nil_r.
Qed.

Section EngineFacts.

Variable r : regex.

Lemma star_lazy_sound c s k a :
  star_lazy c s k = Some a ->
  exists w rest, s = w ++ rest /\ forallb (in_cls c) w = true /\ k rest = Some a.
Proof.
  revert a; induction s as [|ch t IH]; intros a; simpl.
  - destruct (k []) eqn:K; [|discriminate].
    intros H; inversion H; subst. now exists [], [].
  - destruct (k (ch :: t)) eqn:K.
    + intros H; inversion H; subst. now exists [], (ch :: t).
    + destruct (in_cls c ch) eqn:C; [|discriminate].
      intros H; destruct (IH _ H) as (w & rest & -> & W & R).
      exists (ch :: w), rest; simpl; rewrite C; auto.
Qed.

Lemma star_greedy_sound c s k a :
  star_greedy c s k = Some a ->
  exists w rest, s = w ++ rest /\ forallb (in_cls c) w = true /\ k rest = Some a.
Proof.
  revert a; induction s as [|ch t IH]; intros a; simpl.
  - intros H. now exists [], [].
  - destruct (in_cls c ch) eqn:C.
    + destruct (star_greedy c t k) eqn:G.
      * intros H; inversion H; subst.
        destruct (IH _ eq_refl) as (w & rest & -> & W & R).
        exists (ch :: w), rest; simpl; rewrite C; auto.
      * intros H. now exists [], (ch :: t).
    + intros H. now exists [], (ch :: t).
Qed.

End EngineFacts.

Lemma rmatch_sound r : forall s e k a,
  rmatch r s e k = Some a ->
  exists w rest e', s = w ++ rest /\ matches r w e e' /\ k rest e' = Some a.
Proof.
  induction r as [l|m c|r1 IH1 r2 IH2|n r1 IH1]; intros s e k a; simpl.
  - destruct (strip_prefix l s) as [rest|] eqn:E; [|discriminate].
    intros H. apply strip_prefix_Some in E.
    exists l, rest, e; repeat split; auto; constructor.
  - destruct m; intros H;
      [apply star_greedy_sound in H | apply star_lazy_sound in H];
      destruct H as (w & rest & -> & W & K);
      exists w, rest, e; repeat split; auto; now constructor.
  - intros H. apply IH1 in H as (w1 & rest1 & e1 & -> & M1 & H).
    apply IH2 in H as (w2 & rest & e2 & -> & M2 & H).
    exists (w1 ++ w2), rest, e2.
    rewrite app_assoc; repeat split; auto; econstructor; eauto.
  - intros H. apply IH1 in H as (w & rest & e' & -> & M & H).
    rewrite consumed_app in H.
    exists w, rest, ((n, w) :: e'); repeat split; auto; now constructor.
Qed.

Lemma rmatch_leading r : forall s e k,
  starts_with (leading r) s = false -> rmatch r s e k = None.
Proof.
  induction r as [l|m c|r1 IH1 r2 _|n r1 IH1]; intros s e k H; simpl in *.
  - now rewrite (starts_with_false_strip _ _ H).
  - discriminate.
  - now apply IH1.
  - now apply IH1.
Qed.

Lemma match_here_sound r s adv rest e :
  match_here r s adv = Some (rest, e) ->
  exists w, s = w ++ rest /\ matches r w [] e /\ (adv = true -> w <> []).
Proof.
  unfold match_here; intros H.
  apply rmatch_sound in H as (w & rest' & e' & -> & M & H).
  destruct adv; simpl in H.
  - destruct (Nat.eqb_spec (length rest') (length (w ++ rest'))) as [L|L];
      [discriminate|].
    inversion H; subst. exists w; repeat split; auto.
    intros _ ->; now apply L.
  - inversion H; subst. exists w; repeat split; auto. discriminate.
Qed.

Lemma search_sound r : forall s adv pre m rest,
  search r s adv = Some (pre, m, rest) ->
  s = pre ++ whole m ++ rest /\ matches r (whole m) [] (caps m) /\
  (adv = true -> pre = [] -> whole m <> []).
Proof.
  induction s as [|c t IH]; intros adv pre m rest; cbn [search].
  - destruct (match_here r [] adv) as [[rest' e]|] eqn:E; [|discriminate].
    intros H; inversion H; subst; clear H.
    apply match_here_sound in E as (w & Hs & M & A).
    assert (w = []) by (destruct w; [auto | discriminate]); subst w.
    simpl in Hs; subst rest. simpl. repeat split; auto.
  - destruct (match_here r (c :: t) adv) as [[rest' e]|] eqn:E.
    + intros H; inversion H; subst; clear H.
      apply match_here_sound in E as (w & Hs & M & A).
      cbn [whole caps]. rewrite Hs, consumed_app. simpl; repeat split; auto.
    + destruct (search r t false) as [[[pre' m'] rest']|] eqn:S;
        [|discriminate].
      intros H; inversion H; subst; clear H.
      destruct (IH _ _ _ _ S) as (-> & M & _).
      repeat split; auto. discriminate.
Qed.

(** ** The substitution loop *)

Section SubFacts.

Variable r : regex.
Variable repl : Match -> str.

Lemma sub_go_fuel : forall n s adv m,
  work s adv < n -> work s adv < m ->
  sub_go n r repl s adv = sub_go m r repl s adv.
Proof.
  induction n as [|n IH]; intros s adv m Hn Hm; [lia|].
  destruct m as [|m]; [lia|]. simpl.
  destruct (search r s adv) as [[[pre mt] rest]|] eqn:S; [|reflexivity].
  do 2 f_equal.
  apply search_sound in S as (-> & _ & A).
  unfold work in *; rewrite !length_app in *.
  destruct (whole mt) as [|c w] eqn:W; simpl in *.
  - apply IH; destruct adv; simpl in *; try lia;
      destruct pre; simpl in *; try lia; now destruct A.
  - apply IH; simpl; lia.
Qed.

Lemma sub_go_S n s adv :
  sub_go (S n) r repl s adv =
  match search r s adv with
  | None => s
  | Some (pre, m, rest) =>
      pre ++ repl m ++
      sub_go n r repl rest (match whole m with [] => true | _ => false end)
  end.
Proof. reflexivity. Qed.

Lemma re_sub_unfold s :
  re_sub r repl s = sub_go (S (2 * length s + 1)) r repl s false.
Proof. unfold re_sub; f_equal; lia. Qed.

Lemma re_sub_none s : search r s false = None -> re_sub r repl s = s.
Proof. intros S; now rewrite re_sub_unfold, sub_go_S, S. Qed.

Lemma re_sub_some s pre m rest :
  search r s false = Some (pre, m, rest) -> whole m <> [] ->
  re_sub r repl s = pre ++ repl m ++ re_sub r repl rest.
Proof.
  intros S W. rewrite re_sub_unfold, sub_go_S, S.
  do 2 f_equal.
  apply search_sound in S as (-> & _ & _).
  destruct (whole m) as [|c w] eqn:E; [congruence|].
  unfold re_sub.
  apply sub_go_fuel; unfold work; rewrite ?length_app; simpl; lia.
Qed.

(** Every property relating a buffer to its substitution can be shown match
    by match. *)
Lemma re_sub_ind (P : str -> str -> Prop) :
  never_empty r ->
  (forall s, search r s false = None -> P s s) ->
  (forall pre m rest,
      search r (pre ++ whole m ++ rest) false = Some (pre, m, rest) ->
      matches r (whole m) [] (caps m) ->
      P rest (re_sub r repl rest) ->
      P (pre ++ whole m ++ rest) (pre ++ repl m ++ re_sub r repl rest)) ->
  forall s, P s (re_sub r repl s).
Proof.
  intros NE Hnone Hsome s.
  remember (length s) as n eqn:L. revert s L.
  induction n as [n IH] using lt_wf_ind; intros s ->.
  destruct (search r s false) as [[[pre m] rest]|] eqn:S.
  - destruct (search_sound _ _ _ _ _ _ S) as (E & M & _).
    assert (W : whole m <> []) by (intros W; rewrite W in M; eapply NE, M).
    rewrite (re_sub_some _ _ _ _ S W). subst s.
    apply Hsome; auto.
    apply (IH (length rest)); auto.
    rewrite !length_app. destruct (whole m); [congruence|simpl; lia].
  - rewrite (re_sub_none _ S). now apply Hnone.
Qed.

(** Replacing every match by itself changes nothing. *)
Lemma re_sub_id s :
  never_empty r -> (forall m, repl m = whole m) -> re_sub r repl s = s.
Proof.
  intros NE Hid.
  apply (re_sub_ind (fun s s' => s' = s)); auto.
  intros pre m rest _ _ ->. now rewrite Hid.
Qed.

End SubFacts.

(** ** Where the search finds its match *)

Section SearchFacts.

Variable r : regex.

Lemma match_here_leading s adv :
  starts_with (leading r) s = false -> match_here r s adv = None.
Proof. intros H; unfold match_here; now apply rmatch_leading. Qed.

Lemma search_cons_skip c s :
  starts_with (leading r) (c :: s) = false ->
  search r (c :: s) false = shift [c] (search r s false).
Proof.
  intros H; cbn [search]. rewrite (match_here_leading _ _ H).
  now destruct (search r s false) as [[[? ?] ?]|].
Qed.

(** Positions before the first occurrence of the leading literal are
    skipped. *)
Lemma search_fresh b u rest :
  leading r = b ->
  fresh b u ->
  search r (u ++ b ++ rest) false = shift u (search r (b ++ rest) false).
Proof.
  intros <-. induction u as [|c u IH]; intros F.
  - simpl. now destruct (search r _ false) as [[[? ?] ?]|].
  - simpl app. rewrite (search_cons_skip _ _ (fresh_cons_ext _ _ _ _ F)).
    apply fresh_cons in F as [_ F]. rewrite (IH F).
    now destruct (search r (leading r ++ rest) false) as [[[? ?] ?]|].
Qed.

Lemma search_absent s adv :
  contains (leading r) s = false -> search r s adv = None.
Proof.
  revert adv; induction s as [|c s IH]; intros adv H.
  - cbn [search]. rewrite match_here_leading; auto.
    unfold contains in H; simpl in H.
    now destruct (starts_with (leading r) []).
  - apply contains_cons in H as [H1 H2].
    cbn [search]. rewrite (match_here_leading _ _ H1), (IH false H2); auto.
Qed.

Lemma search_here s rest e :
  match_here r s false = Some (rest, e) ->
  search r s false = Some ([], mkMatch (consumed s rest) e, rest).
Proof. intros H; destruct s; cbn [search]; now rewrite H. Qed.

(** The match is found where the pattern succeeds, when its leading
    literal does not occur before. *)
Lemma search_at u s rest e :
  fresh (leading r) u ->
  match_here r s false = Some (rest, e) ->
  search r (u ++ s) false = Some (u, mkMatch (consumed s rest) e, rest).
Proof.
  intros F H.
  destruct (starts_with (leading r) s) eqn:L.
  - apply starts_with_true in L as [t ->].
    rewrite (search_fresh (leading r) u t eq_refl F), (search_here _ _ _ H).
    cbn [shift]. now rewrite app_nil_r.
  - rewrite (match_here_leading _ false L) in H. discriminate.
Qed.

Lemma absent_before_cons b c u :
  absent_before b (c :: u) ->
  (forall v, starts_with b (c :: u ++ v) = false) /\ absent_before b u.
Proof.
  intros H. split; intros v; specialize (H v);
    simpl app in H; rewrite find_cons in H;
    destruct (starts_with b (c :: u ++ v)).
  - destruct (find b v); discriminate.
  - reflexivity.
  - destruct (find b v); discriminate.
  - destruct (find b (u ++ v)), (find b v); simpl in *; congruence.
Qed.

Lemma search_absent_before u v :
  absent_before (leading r) u ->
  search r (u ++ v) false = shift u (search r v false).
Proof.
  induction u as [|c u IH]; intros A.
  - simpl. now destruct (search r v false) as [[[? ?] ?]|].
  - apply absent_before_cons in A as [A1 A2].
    simpl app. rewrite (search_cons_skip _ _ (A1 v)), (IH A2).
    now destruct (search r v false) as [[[? ?] ?]|].
Qed.

End SearchFacts.

(** ** The two stars *)

(** The lazy star stops at the first place where the rest of the pattern
    succeeds; when the rest starts with a literal [b], that is the first
    occurrence of [b] from which it succeeds. *)
Lemma star_lazy_fresh (k : str -> result) b x rest a :
  (forall s, starts_with b s = false -> k s = None) ->
  fresh b x ->
  k (b ++ rest) = Some a ->
  star_lazy AnyChar (x ++ b ++ rest) k = Some a.
Proof.
  intros Hk; induction x as [|c x IH]; intros F K.
  - simpl app. destruct (b ++ rest); simpl; now rewrite K.
  - simpl app. cbn [star_lazy in_cls].
    rewrite (Hk _ (fresh_cons_ext _ _ _ _ F)).
    apply fresh_cons in F as [_ F]. auto.
Qed.

(** The greedy star takes the whole run of class characters when the rest
    of the pattern succeeds right after it. *)
Lemma star_greedy_run (k : str -> result) c w rest a :
  forallb (in_cls c) w = true ->
  match rest with ch :: _ => in_cls c ch = false | [] => True end ->
  k rest = Some a ->
  star_greedy c (w ++ rest) k = Some a.
Proof.
  intros W R K; induction w as [|ch w IH]; simpl in *.
  - destruct rest as [|ch t]; simpl; [exact K|]. now rewrite R.
  - apply andb_prop in W as [W1 W2]. now rewrite W1, (IH W2).
Qed.

(** ** Stepping the matcher through a pattern *)

Lemma rmatch_lit l rest e k : rmatch (Lit l) (l ++ rest) e k = k rest e.
Proof. simpl; now rewrite strip_prefix_app. Qed.

Lemma strip_prefix_cat p q s :
  strip_prefix (p ++ q) s =
  match strip_prefix p s with
  | Some rest => strip_prefix q rest
  | None => None
  end.
Proof.
  revert s; induction p as [|a p IH]; intros s; simpl; [reflexivity|].
  destruct s as [|b s]; [reflexivity|].
  destruct (N.eqb a b); [apply IH | reflexivity].
Qed.

Lemma starts_with_cat_false p q s rest :
  starts_with (p ++ q) s = false ->
  strip_prefix p s = Some rest -> strip_prefix q rest = None.
Proof.
  unfold starts_with; rewrite strip_prefix_cat; intros H E.
  rewrite E in H. now destruct (strip_prefix q rest).
Qed.

Lemma consumed_eq w rest s : s = w ++ rest -> consumed s rest = w.
Proof. intros ->; apply consumed_app. Qed.

Lemma app_not_nil (a b : str) : a <> [] -> a ++ b <> [].
Proof. destruct a; [congruence | discriminate]. Qed.

(** The literals of the script are kept folded in what follows. *)
Opaque struct_open struct_last brace close_brace tags_decl header injection
  guard_let guard_if guard_return construction_open filename_field
  timestamp_field tags_lookup construction_fields save_cmd marker anchor
  timestamp_now tags_default site_open site_close.

(* ================================================================== *)
(** * The patterns are the ones of the source *)
(* ================================================================== *)

Lemma patterns_as_written :
  pattern_text struct_pattern =
    lit "(pub struct Screenshot \{.*?pub timestamp: u64,)(\n\})" /\
  pattern_text get_screenshots_pattern =
    lit "(pub fn get_screenshots\(game_exe: String\) -> Result<Vec<Screenshot>, String> \{)(.*?)(\n\})" /\
  pattern_text guard_pattern =
    lit "let dir = screenshots_dir\(&game_exe\);\s*if !dir\.exists\(\) \{\s*return Ok\(vec!\[\]\);\s*\}" /\
  pattern_text construction_pattern =
    lit "Screenshot \{.*?filename,.*?timestamp,(\s*)\}" /\
  pattern_text site_pattern =
    lit "Ok\(Screenshot \{.*?timestamp: now,.*?\}\)" /\
  pattern_text win_pattern =
    lit "Ok\(Screenshot \{.*?timestamp: now,\n            tags: vec!\[\],.*?\}\)".
Proof. vm_compute. repeat split. Qed.

Lemma templates_as_written :
  template_text struct_template =
    lit "\1\n    pub tags: Vec<String>,\2" /\
  template_text construction_template =
    lit "let tags = all_tags.get(&filename).cloned().unwrap_or_default();\n            Screenshot {\n                path: path_str,\n                filename,\n                timestamp,\n                tags,\1}".
Proof. vm_compute. repeat split. Qed.

(** The injected text, used as a template, has no backslash: it stands for
    itself. *)
Lemma injection_plain : contains backslash injection = false.
Proof. vm_compute. reflexivity. Qed.

Lemma struct_repl_eq m :
  struct_repl m = group m 1 ++ tags_decl ++ group m 2.
Proof. reflexivity. Qed.

Lemma construction_repl_eq m :
  construction_repl m =
  tags_lookup ++ construction_fields ++ group m 1 ++ brace.
Proof.
  unfold construction_repl, construction_template. cbn [expand item].
  now rewrite <- app_assoc.
Qed.

Lemma groups_as_written :
  group_numbers struct_pattern = [1; 2] /\
  group_numbers get_screenshots_pattern = [1; 2; 3] /\
  group_numbers guard_pattern = [] /\
  group_numbers construction_pattern = [1] /\
  group_numbers site_pattern = [] /\
  group_numbers win_pattern = [].
Proof. vm_compute. repeat split. Qed.

Lemma flags_as_written :
  dots struct_pattern = [AnyChar] /\
  dots get_screenshots_pattern = [AnyChar] /\
  dots construction_pattern = [AnyChar; AnyChar] /\
  dots site_pattern = [AnyChar; AnyChar] /\
  dots win_pattern = [NotNewline; NotNewline].
Proof. vm_compute. repeat split. Qed.

(* ================================================================== *)
(** * Stage 1: the struct gets its field *)
(* ================================================================== *)

Lemma struct_match_here mid post :
  fresh (struct_last ++ close_brace) mid ->
  match_here struct_pattern
    (struct_open ++ mid ++ struct_last ++ close_brace ++ post) false =
  Some (post, [(2, close_brace); (1, struct_open ++ mid ++ struct_last)]).
Proof.
  intros F. unfold match_here, struct_pattern. cbn [rmatch seq_re].
  rewrite strip_prefix_app.
  replace (mid ++ struct_last ++ close_brace ++ post)
    with (mid ++ (struct_last ++ close_brace) ++ post)
    by now rewrite <- !app_assoc.
  apply star_lazy_fresh; [|exact F|].
  - intros s H.
    destruct (strip_prefix struct_last s) as [rest|] eqn:E; [|reflexivity].
    now rewrite (starts_with_cat_false _ _ _ _ H E).
  - rewrite <- app_assoc, !strip_prefix_app. cbn [andb].
    do 4 f_equal; [|do 2 f_equal]; f_equal; apply consumed_eq;
      now rewrite <- ?app_assoc.
Qed.

Lemma struct_open_not_nil : struct_open <> [].
Proof. now vm_compute. Qed.

Lemma struct_search pre mid post :
  fresh struct_open pre ->
  fresh (struct_last ++ close_brace) mid ->
  search struct_pattern
    (pre ++ struct_open ++ mid ++ struct_last ++ close_brace ++ post) false =
  Some (pre,
        mkMatch (struct_open ++ mid ++ struct_last ++ close_brace)
                [(2, close_brace); (1, struct_open ++ mid ++ struct_last)],
        post).
Proof.
  intros Fp Fm.
  rewrite (search_fresh struct_pattern struct_open pre _ eq_refl Fp).
  rewrite (search_here _ _ _ _ (struct_match_here mid post Fm)).
  cbn [shift]. rewrite app_nil_r.
  rewrite (consumed_eq (struct_open ++ mid ++ struct_last ++ close_brace) post);
    [reflexivity | now rewrite <- !app_assoc].
Qed.

Lemma stage_struct_step pre mid post :
  fresh struct_open pre ->
  fresh (struct_last ++ close_brace) mid ->
  stage_struct
    (pre ++ struct_open ++ mid ++ struct_last ++ close_brace ++ post) =
  pre ++ struct_open ++ mid ++ struct_last ++ tags_decl ++ close_brace ++
  stage_struct post.
Proof.
  intros Fp Fm. unfold stage_struct.
  rewrite (re_sub_some _ _ _ _ _ _ (struct_search pre mid post Fp Fm)).
  - rewrite struct_repl_eq; cbn [group whole caps lookup Nat.eqb].
    now rewrite <- !app_assoc.
  - cbn [whole]. apply app_not_nil, struct_open_not_nil.
Qed.

Lemma close_brace_eq : close_brace = nl ++ brace.
Proof. now vm_compute. Qed.

(** Both definitions of [two_structs] get the declaration. *)
Lemma two_structs_two_fields :
  occurrences (lit "pub struct Screenshot {") two_structs = 2 /\
  stage_struct two_structs =
  ln "#[cfg(windows)]" ++
  ln "pub struct Screenshot {" ++
  ln "    pub path: String," ++
  ln "    pub timestamp: u64," ++
  ln "    pub tags: Vec<String>," ++
  ln "}" ++
  ln "#[cfg(not(windows))]" ++
  ln "pub struct Screenshot {" ++
  ln "    pub path: String," ++
  ln "    pub timestamp: u64," ++
  ln "    pub tags: Vec<String>," ++
  ln "}" /\
  occurrences (lit "pub tags: Vec<String>,") (stage_struct two_structs) = 2 /\
  occurrences (lit "pub tags: Vec<String>,") (transform two_structs) = 2.
Proof. now vm_compute. Qed.

(** C2 (as amended).  Take a buffer with one [Screenshot] definition: its
    first [pub struct Screenshot {] is followed, at the first
    [pub timestamp: u64,] that a newline and [}] follow directly, by that
    closing delimiter, and the pattern has no further match after it.  The
    struct stage returns the same buffer with the declaration
    [pub tags: Vec<String>,] inserted on a line of its own, indented by
    four spaces, right after the terminal attribute and right before the
    closing delimiter, and nothing else changed. *)
Theorem struct_field_inserted pre mid post :
  fresh (lit "pub struct Screenshot {") pre ->
  fresh (lit "pub timestamp: u64," ++ nl ++ lit "}") mid ->
  search struct_pattern post false = None ->
  stage_struct
    (pre ++ lit "pub struct Screenshot {" ++ mid ++
     lit "pub timestamp: u64," ++ nl ++ lit "}" ++ post) =
  pre ++ lit "pub struct Screenshot {" ++ mid ++
  lit "pub timestamp: u64," ++ nl ++ lit "    pub tags: Vec<String>," ++
  nl ++ lit "}" ++ post.
Proof.
  intros Fp Fm N.
  replace (lit "pub timestamp: u64," ++ nl ++ lit "}")
    with (struct_last ++ close_brace) in Fm by now vm_compute.
  replace (lit "pub struct Screenshot {") with struct_open in *
    by now vm_compute.
  replace (lit "pub timestamp: u64,") with struct_last by now vm_compute.
  replace (nl ++ lit "    pub tags: Vec<String>," ++ nl ++ lit "}" ++ post)
    with (tags_decl ++ close_brace ++ post) by now vm_compute.
  replace (nl ++ lit "}" ++ post) with (close_brace ++ post)
    by now vm_compute.
  rewrite (stage_struct_step pre mid post Fp Fm).
  unfold stage_struct at 1. now rewrite (re_sub_none _ _ _ N).
Qed.

(* ================================================================== *)
(** * Stage 4: the other construction sites *)
(* ================================================================== *)

Lemma site_match_here x y post :
  fresh timestamp_now x -> fresh site_close y ->
  match_here site_pattern
    (site_open ++ x ++ timestamp_now ++ y ++ site_close ++ post) false =
  Some (post, []).
Proof.
  intros Fx Fy. unfold match_here, site_pattern. cbn [rmatch seq_re].
  rewrite strip_prefix_app.
  apply star_lazy_fresh; [|exact Fx|].
  { intros s H. now rewrite (starts_with_false_strip _ _ H). }
  rewrite strip_prefix_app.
  apply star_lazy_fresh; [|exact Fy|].
  { intros s H. now rewrite (starts_with_false_strip _ _ H). }
  now rewrite strip_prefix_app.
Qed.

Lemma site_open_not_nil : site_open <> [].
Proof. now vm_compute. Qed.

Lemma timestamp_now_not_nil : timestamp_now <> [].
Proof. now vm_compute. Qed.

Lemma timestamp_now_after_open : no_start timestamp_now site_open = true.
Proof. now vm_compute. Qed.

Lemma site_search pre x y post :
  fresh site_open pre -> fresh timestamp_now x -> fresh site_close y ->
  search site_pattern
    (pre ++ site_open ++ x ++ timestamp_now ++ y ++ site_close ++ post) false =
  Some (pre,
        mkMatch (site_open ++ x ++ timestamp_now ++ y ++ site_close) [],
        post).
Proof.
  intros Fp Fx Fy.
  rewrite (search_fresh site_pattern site_open pre _ eq_refl Fp).
  rewrite (search_here _ _ _ _ (site_match_here x y post Fx Fy)).
  cbn [shift]. rewrite app_nil_r.
  rewrite (consumed_eq (site_open ++ x ++ timestamp_now ++ y ++ site_close) post);
    [reflexivity | now rewrite <- !app_assoc].
Qed.

Lemma fix_other_screenshots_site x y e :
  fresh timestamp_now x ->
  fix_other_screenshots
    (mkMatch (site_open ++ x ++ timestamp_now ++ y ++ site_close) e) =
  fixed_site x y.
Proof.
  intros Fx. unfold fix_other_screenshots, fixed_site. cbn [group whole].
  rewrite (app_assoc site_open x).
  rewrite str_replace_fresh.
  - now rewrite <- !app_assoc.
  - exact timestamp_now_not_nil.
  - apply fresh_after; [exact timestamp_now_after_open | exact Fx].
Qed.

Lemma stage_sites_step pre x y post :
  fresh site_open pre -> fresh timestamp_now x -> fresh site_close y ->
  stage_sites
    (pre ++ site_open ++ x ++ timestamp_now ++ y ++ site_close ++ post) =
  pre ++ fixed_site x y ++ stage_sites post.
Proof.
  intros Fp Fx Fy. unfold stage_sites.
  rewrite (re_sub_some _ _ _ _ _ _ (site_search pre x y post Fp Fx Fy)).
  - now rewrite fix_other_screenshots_site.
  - cbn [whole]. apply app_not_nil, site_open_not_nil.
Qed.

Lemma matches_leading r w e e' :
  matches r w e e' -> exists z, w = leading r ++ z.
Proof.
  induction 1 as [l e|m c w e W|r1 r2 w1 w2 e e1 e2 _ [z1 ->] _ _
                  |n r w e e' _ IH]; simpl.
  - exists []. now rewrite app_nil_r.
  - now exists w.
  - exists (z1 ++ w2). now rewrite app_assoc.
  - exact IH.
Qed.

Lemma leading_never_empty r : leading r <> [] -> never_empty r.
Proof.
  intros L e e' M. apply matches_leading in M as [z M].
  destruct (leading r); [congruence | discriminate].
Qed.

Lemma site_never_empty : never_empty site_pattern.
Proof. apply leading_never_empty. exact site_open_not_nil. Qed.

Lemma win_never_empty : never_empty win_pattern.
Proof. apply leading_never_empty. exact site_open_not_nil. Qed.

(** The substitution for the win module returns its input. *)
Lemma stage_win_id content : stage_win content = content.
Proof. apply re_sub_id; [exact win_never_empty | reflexivity]. Qed.

Lemma transform_unfold content :
  transform content =
  stage_sites (stage_save_cmd (stage_get_screenshots (stage_struct content))).
Proof. unfold transform. apply stage_win_id. Qed.

Lemma stage_sites_all l tail :
  Forall is_site l ->
  search site_pattern tail false = None ->
  stage_sites (with_sites l tail) = with_fixed_sites l tail.
Proof.
  intros Hl Ht.
  induction Hl as [|[[pre x] y] l (Fp & Fx & Fy) _ IH];
    cbn [with_sites with_fixed_sites].
  - now apply re_sub_none.
  - now rewrite (stage_sites_step pre x y _ Fp Fx Fy), IH.
Qed.

(** ** Sites with all their fields *)

Lemma fields_text_cons field inserted f fs :
  fields_text field inserted (f :: fs) =
  f ++ field ++ inserted ++ fields_text field inserted fs.
Proof.
  unfold fields_text. cbn [map concat]. now rewrite <- !app_assoc.
Qed.

Lemma fields_replaced fs : forall rest,
  Forall (fresh timestamp_now) fs ->
  str_replace timestamp_now (timestamp_now ++ tags_default)
    (fields_text timestamp_now [] fs ++ rest) =
  fields_text timestamp_now tags_default fs ++
  str_replace timestamp_now (timestamp_now ++ tags_default) rest.
Proof.
  induction fs as [|f fs IH]; intros rest H; [reflexivity|].
  inversion H as [|? ? Ff Hfs]; subst.
  rewrite !fields_text_cons. cbn [app]. rewrite <- !app_assoc.
  rewrite (str_replace_fresh timestamp_now _ timestamp_now_not_nil f _ Ff).
  now rewrite (IH rest Hfs), <- !app_assoc.
Qed.

Lemma stage_sites_fstep pre fs z post :
  is_fsite site_open timestamp_now site_close (pre, fs, z) ->
  stage_sites
    (pre ++ site_open ++ fields_text timestamp_now [] fs ++ z ++
     site_close ++ post) =
  pre ++ site_open ++ fields_text timestamp_now tags_default fs ++ z ++
  site_close ++ stage_sites post.
Proof.
  intros (Hn & Fp & Ff & Nz & Fc).
  destruct fs as [|f fs]; [congruence|]. cbn [tl] in Fc.
  inversion Ff as [|? ? Ff1 Ffs]; subst.
  rewrite !fields_text_cons. cbn [app]. rewrite <- !app_assoc.
  replace (fields_text timestamp_now [] fs ++ z ++ site_close ++ post)
    with ((fields_text timestamp_now [] fs ++ z) ++ site_close ++ post)
    by now rewrite <- !app_assoc.
  rewrite (stage_sites_step pre f _ post Fp Ff1 Fc).
  unfold fixed_site. rewrite <- !app_assoc.
  rewrite (fields_replaced fs (z ++ site_close) Ffs).
  rewrite (str_replace_none _ _ timestamp_now_not_nil _
             (contains_false_find _ _ Nz)).
  now rewrite <- !app_assoc.
Qed.

Lemma stage_sites_fields l tail :
  Forall (is_fsite site_open timestamp_now site_close) l ->
  search site_pattern tail false = None ->
  stage_sites (sites_text site_open timestamp_now [] site_close l tail) =
  sites_text site_open timestamp_now tags_default site_close l tail.
Proof.
  intros Hl Ht.
  induction Hl as [|[[pre fs] z] l H _ IH]; cbn [sites_text].
  - now apply re_sub_none.
  - now rewrite (stage_sites_fstep pre fs z _ H), IH.
Qed.

(** In [inner_meta_rs] the site's own [timestamp: now,] comes after a
    [})]: the default goes into the inner value and the site's field gets
    none. *)
Lemma inner_field_missed :
  occurrences (lit "timestamp: now,") inner_meta_rs = 2 /\
  transform inner_meta_rs =
  ln "    Ok(Screenshot {" ++
  ln "        path: write_meta(&Meta {" ++
  ln "            timestamp: now," ++
  ln "        tags: vec![]," ++
  ln "        })?," ++
  ln "        filename," ++
  ln "        timestamp: now," ++
  ln "    })" /\
  occurrences (lit "tags: vec![],") (transform inner_meta_rs) = 1.
Proof. now vm_compute. Qed.

(** C5 (as amended).  Cut the buffer that reaches the fourth stage at its
    construction sites as the scan does: each site runs from the first
    [Ok(Screenshot {] after the previous site to the first [})] after its
    first [timestamp: now,], and holds the fields [timestamp: now,] found
    up to there.  The stage returns the buffer with a newline, eight
    spaces and [tags: vec![],] put right after every [timestamp: now,] of
    every site, with no test of what the site already holds, and the text
    between and after the sites unchanged; the transformation returns that
    buffer. *)
Theorem sites_all_fixed l tail :
  Forall (is_fsite (lit "Ok(Screenshot {") (lit "timestamp: now,")
            (lit "})")) l ->
  search site_pattern tail false = None ->
  stage_sites
    (sites_text (lit "Ok(Screenshot {") (lit "timestamp: now,") []
       (lit "})") l tail) =
  sites_text (lit "Ok(Screenshot {") (lit "timestamp: now,")
    (nl ++ lit "        tags: vec![],") (lit "})") l tail /\
  forall content,
    stage_save_cmd (stage_get_screenshots (stage_struct content)) =
    sites_text (lit "Ok(Screenshot {") (lit "timestamp: now,") []
      (lit "})") l tail ->
    transform content =
    sites_text (lit "Ok(Screenshot {") (lit "timestamp: now,")
      (nl ++ lit "        tags: vec![],") (lit "})") l tail.
Proof.
  replace (lit "Ok(Screenshot {") with site_open by now vm_compute.
  replace (lit "timestamp: now,") with timestamp_now by now vm_compute.
  replace (lit "})") with site_close by now vm_compute.
  replace (nl ++ lit "        tags: vec![],") with tags_default
    by now vm_compute.
  intros Hl Ht. split.
  - now apply stage_sites_fields.
  - intros content E. rewrite transform_unfold, E.
    now apply stage_sites_fields.
Qed.

(* ================================================================== *)
(** * Stage 2: [get_screenshots] *)
(* ================================================================== *)

(** [\s*] followed by a literal that does not start with a space. *)
Lemma star_greedy_lit (k : str -> result) w b z a :
  all_space w -> starts_nonspace b ->
  k (b ++ z) = Some a ->
  star_greedy Space (w ++ b ++ z) k = Some a.
Proof.
  intros W B K. apply star_greedy_run; auto.
  destruct b as [|c b]; [contradiction | exact B].
Qed.

Lemma guard_match_here w1 w2 w3 rest :
  all_space w1 -> all_space w2 -> all_space w3 ->
  match_here guard_pattern (guard_text w1 w2 w3 ++ rest) false =
  Some (rest, []).
Proof.
  intros W1 W2 W3. unfold match_here, guard_pattern, guard_text.
  cbn [rmatch seq_re]. rewrite <- !app_assoc, strip_prefix_app.
  apply star_greedy_lit; [exact W1 | now vm_compute |].
  rewrite strip_prefix_app.
  apply star_greedy_lit; [exact W2 | now vm_compute |].
  rewrite strip_prefix_app.
  apply star_greedy_lit; [exact W3 | now vm_compute |].
  now rewrite strip_prefix_app.
Qed.

Lemma construction_match_here x y ws rest :
  fresh filename_field x -> fresh timestamp_field y -> all_space ws ->
  match_here construction_pattern (construction x y ws ++ rest) false =
  Some (rest, [(1, ws)]).
Proof.
  intros Fx Fy W. unfold match_here, construction_pattern, construction.
  cbn [rmatch seq_re]. rewrite <- !app_assoc, strip_prefix_app.
  apply star_lazy_fresh; [|exact Fx|].
  { intros s H. now rewrite (starts_with_false_strip _ _ H). }
  rewrite strip_prefix_app.
  apply star_lazy_fresh; [|exact Fy|].
  { intros s H. now rewrite (starts_with_false_strip _ _ H). }
  rewrite strip_prefix_app.
  apply star_greedy_lit; [exact W | now vm_compute |].
  rewrite strip_prefix_app. cbn [andb].
  now rewrite (consumed_eq ws (brace ++ rest)).
Qed.

Lemma get_screenshots_match_here body post :
  fresh close_brace body ->
  match_here get_screenshots_pattern
    (header ++ body ++ close_brace ++ post) false =
  Some (post, [(3, close_brace); (2, body); (1, header)]).
Proof.
  intros Fb. unfold match_here, get_screenshots_pattern.
  cbn [rmatch seq_re]. rewrite strip_prefix_app.
  apply star_lazy_fresh; [|exact Fb|].
  { intros s H. now rewrite (starts_with_false_strip _ _ H). }
  rewrite strip_prefix_app. cbn [andb].
  rewrite (consumed_eq header (body ++ close_brace ++ post) _ eq_refl).
  rewrite (consumed_eq body (close_brace ++ post) _ eq_refl).
  now rewrite (consumed_eq close_brace post _ eq_refl).
Qed.

(** ** Texts the substitution passes over *)

Section SkipFacts.

Variable r : regex.
Variable repl : Match -> str.
Hypothesis r_never_empty : never_empty r.

Lemma re_sub_absent s :
  contains (leading r) s = false -> re_sub r repl s = s.
Proof. intros H. apply re_sub_none. now apply search_absent. Qed.

Lemma re_sub_skip u v :
  absent_before (leading r) u ->
  re_sub r repl (u ++ v) = u ++ re_sub r repl v.
Proof.
  intros A. pose proof (search_absent_before r u v A) as S.
  destruct (search r v false) as [[[pre m] rest]|] eqn:Sv; cbn [shift] in S.
  - assert (W : whole m <> []).
    { destruct (search_sound _ _ _ _ _ _ Sv) as (_ & M & _).
      intros W; rewrite W in M. eapply r_never_empty, M. }
    rewrite (re_sub_some _ _ _ _ _ _ S W), (re_sub_some _ _ _ _ _ _ Sv W).
    now rewrite <- app_assoc.
  - now rewrite (re_sub_none _ _ _ S), (re_sub_none _ _ _ Sv).
Qed.

Lemma re_sub_at u s rest e :
  fresh (leading r) u ->
  match_here r s false = Some (rest, e) ->
  re_sub r repl (u ++ s) =
  u ++ repl (mkMatch (consumed s rest) e) ++ re_sub r repl rest.
Proof.
  intros F H. apply re_sub_some; [now apply search_at|].
  cbn [whole]. intros W.
  apply match_here_sound in H as (w & -> & M & _).
  rewrite consumed_app in W. subst w. eapply r_never_empty, M.
Qed.

End SkipFacts.

Lemma guard_never_empty : never_empty guard_pattern.
Proof. apply leading_never_empty. now vm_compute. Qed.

Lemma construction_never_empty : never_empty construction_pattern.
Proof. apply leading_never_empty. now vm_compute. Qed.

Lemma get_screenshots_never_empty : never_empty get_screenshots_pattern.
Proof. apply leading_never_empty. now vm_compute. Qed.

Lemma pass_guard_step b0 w1 w2 w3 rest :
  fresh guard_let b0 -> all_space w1 -> all_space w2 -> all_space w3 ->
  pass_guard (b0 ++ guard_text w1 w2 w3 ++ rest) =
  b0 ++ injection ++ pass_guard rest.
Proof.
  intros F W1 W2 W3. unfold pass_guard.
  exact (re_sub_at guard_pattern _ guard_never_empty b0 _ _ _ F
           (guard_match_here w1 w2 w3 rest W1 W2 W3)).
Qed.

Lemma pass_construction_step pre x y ws rest :
  fresh construction_open pre ->
  fresh filename_field x -> fresh timestamp_field y -> all_space ws ->
  pass_construction (pre ++ construction x y ws ++ rest) =
  pre ++ rewritten_construction ws ++ pass_construction rest.
Proof.
  intros F Fx Fy W. unfold pass_construction.
  rewrite (re_sub_at construction_pattern _ construction_never_empty pre _ _ _ F
             (construction_match_here x y ws rest Fx Fy W)).
  rewrite construction_repl_eq. unfold rewritten_construction.
  cbn [group caps lookup Nat.eqb]. now rewrite <- !app_assoc.
Qed.

Lemma stage_get_screenshots_step pre body post :
  fresh header pre -> fresh close_brace body ->
  stage_get_screenshots (pre ++ header ++ body ++ close_brace ++ post) =
  pre ++ header ++ pass_construction (pass_guard body) ++ close_brace ++
  stage_get_screenshots post.
Proof.
  intros Fp Fb. unfold stage_get_screenshots.
  rewrite (re_sub_at get_screenshots_pattern _ get_screenshots_never_empty
             pre _ _ _ Fp (get_screenshots_match_here body post Fb)).
  unfold replace_get_screenshots.
  cbn [group caps lookup Nat.eqb]. now rewrite <- !app_assoc.
Qed.

Lemma absent_isolated b p u :
  u <> [] -> no_cross b u = true -> no_start b u = true ->
  contains b p = false -> absent_before b (p ++ u).
Proof.
  intros U C N H v.
  now rewrite <- app_assoc, (find_isolated b p u v U C N H), length_app.
Qed.

Lemma injection_not_nil : injection <> [].
Proof. now vm_compute. Qed.

(** The injected text holds no [Screenshot {], and none can straddle its
    ends. *)
Lemma injection_no_cross : no_cross construction_open injection = true.
Proof. now vm_compute. Qed.

Lemma injection_no_start : no_start construction_open injection = true.
Proof. now vm_compute. Qed.

Lemma stage_get_screenshots_tagged
        pre b0 w1 w2 w3 b1 x y ws b2 post :
  fresh header pre ->
  fresh close_brace
    (b0 ++ guard_text w1 w2 w3 ++ b1 ++ construction x y ws ++ b2) ->
  fresh guard_let b0 -> all_space w1 -> all_space w2 -> all_space w3 ->
  contains guard_let (b1 ++ construction x y ws ++ b2) = false ->
  contains construction_open b0 = false ->
  fresh construction_open b1 ->
  fresh filename_field x -> fresh timestamp_field y -> all_space ws ->
  stage_get_screenshots
    (pre ++ header ++
     (b0 ++ guard_text w1 w2 w3 ++ b1 ++ construction x y ws ++ b2) ++
     close_brace ++ post) =
  pre ++ header ++
  (b0 ++ injection ++ b1 ++ rewritten_construction ws ++
   pass_construction b2) ++
  close_brace ++ stage_get_screenshots post.
Proof.
  intros Fp Fb Fg W1 W2 W3 Ng Nc Fc Fx Fy W.
  rewrite (stage_get_screenshots_step pre _ post Fp Fb).
  do 2 f_equal. f_equal.
  rewrite (pass_guard_step b0 w1 w2 w3 _ Fg W1 W2 W3).
  unfold pass_guard at 1.
  rewrite (re_sub_absent guard_pattern _ _ Ng).
  replace (b0 ++ injection ++ b1 ++ construction x y ws ++ b2)
    with ((b0 ++ injection ++ b1) ++ construction x y ws ++ b2)
    by now rewrite <- !app_assoc.
  rewrite pass_construction_step; auto.
  - now rewrite <- !app_assoc.
  - apply fresh_isolated; auto using injection_not_nil, injection_no_cross,
      injection_no_start.
Qed.

(** The rewrite drops the path expression of [body_other_path]. *)
Lemma path_expression_dropped :
  contains (lit "path: entry.path().display().to_string(),") body_other_path
  = true /\
  pass_construction body_other_path =
  nl ++ lit "            " ++
  rewritten_construction (nl ++ lit "            ") /\
  contains (lit "entry.path()") (pass_construction body_other_path) = false.
Proof. now vm_compute. Qed.

(** C7 (as amended).  Each construction matched in the body, from
    [Screenshot {] over the first [filename,] to the first [timestamp,]
    that spaces and [}] follow, is replaced by one fixed text: the tags
    lookup, then a construction with the fields [path: path_str],
    [filename], [timestamp] and [tags], then the spaces the original had
    before its [}].  Nothing else of the original construction is kept: the
    result is the same whatever stood between [Screenshot {] and
    [timestamp,]. *)
Theorem construction_rewritten_fixed pre x y ws rest :
  fresh construction_open pre ->
  fresh filename_field x -> fresh timestamp_field y -> all_space ws ->
  pass_construction (pre ++ construction x y ws ++ rest) =
  pre ++ tags_lookup ++ construction_fields ++ ws ++ brace ++
  pass_construction rest.
Proof.
  intros F Fx Fy W. rewrite (pass_construction_step pre x y ws rest F Fx Fy W).
  unfold rewritten_construction. now rewrite <- !app_assoc.
Qed.

(** On [body_early_open] the first pass injects the preamble and the second
    pass removes it again: its match runs from the early [Screenshot {]
    across the preamble. *)
Lemma preamble_overwritten :
  contains injection (pass_guard body_early_open) = true /\
  pass_construction (pass_guard body_early_open) =
  nl ++ lit "    let none = " ++
  rewritten_construction (nl ++ lit "    ") ++ lit ";" /\
  contains (lit "let meta_path") (pass_construction (pass_guard body_early_open))
  = false.
Proof. now vm_compute. Qed.

Lemma injection_absent b0 :
  contains construction_open b0 = false ->
  absent_before construction_open (b0 ++ injection).
Proof.
  apply absent_isolated; auto using injection_not_nil, injection_no_cross,
    injection_no_start.
Qed.

(** C9 (as amended).  The injected text contains no match of the
    construction pattern, and no match can start inside it.  So when no
    [Screenshot {] stands before the injected preamble, the construction
    rewrite leaves the preamble as it is and works on what follows it. *)
Theorem passes_do_not_interfere :
  search construction_pattern injection false = None /\
  forall b0 rest,
    contains construction_open b0 = false ->
    pass_construction (b0 ++ injection ++ rest) =
    b0 ++ injection ++ pass_construction rest.
Proof.
  split; [now vm_compute|].
  intros b0 rest H. unfold pass_construction.
  rewrite app_assoc, re_sub_skip.
  - now rewrite <- app_assoc.
  - exact construction_never_empty.
  - now apply injection_absent.
Qed.

(* ================================================================== *)
(** * Stage 3: the new command *)
(* ================================================================== *)

Lemma anchor_not_nil : anchor <> [].
Proof. now vm_compute. Qed.

Lemma marker_not_nil : marker <> [].
Proof. now vm_compute. Qed.

Lemma stage_save_cmd_guarded content :
  contains marker content = true -> stage_save_cmd content = content.
Proof. unfold stage_save_cmd. now intros ->. Qed.

Lemma stage_save_cmd_no_anchor content :
  contains anchor content = false -> stage_save_cmd content = content.
Proof.
  intros H. unfold stage_save_cmd.
  destruct (negb (contains marker content)); [|reflexivity].
  apply str_replace_none; [exact anchor_not_nil|].
  now apply contains_false_find.
Qed.

(* ================================================================== *)
(** * Pattern misses *)
(* ================================================================== *)

(** C3.  When the buffer holds no match of the struct pattern, none of the
    [get_screenshots] pattern, no anchor and no construction site, the
    transformation returns the buffer as it is, and a run on a file that
    can be read and written writes the content back unchanged.  A run
    raises only when the file cannot be read or cannot be written. *)
Theorem no_pattern_no_change content :
  search struct_pattern content false = None ->
  search get_screenshots_pattern content false = None ->
  contains anchor content = false ->
  search site_pattern content false = None ->
  transform content = content /\
  (forall f, readable f = Some content -> writable f = true ->
             run f = Written content) /\
  (forall f, run f = Raised <-> readable f = None \/ writable f = false).
Proof.
  intros H1 H2 H3 H4.
  assert (T : transform content = content).
  { rewrite transform_unfold. unfold stage_struct, stage_get_screenshots.
    rewrite (re_sub_none _ _ _ H1), (re_sub_none _ _ _ H2).
    rewrite (stage_save_cmd_no_anchor _ H3).
    unfold stage_sites. now rewrite (re_sub_none _ _ _ H4). }
  split; [exact T|split].
  - intros f R W. unfold run. now rewrite R, W, T.
  - intros f. unfold run.
    destruct (readable f) as [c|], (writable f); split;
      try discriminate; auto; intros [?|?]; discriminate.
Qed.

(* ================================================================== *)
(** * Running twice *)
(* ================================================================== *)

(** C6.  The backfill is not idempotent.  One run on [capture_rs] gives a
    buffer whose site carries [tags: vec![],] once; a run on that
    already-patched buffer inserts it a second time.  The same happens to
    the sample file. *)
Theorem backfill_not_idempotent :
  transform capture_rs =
    ln "    Ok(Screenshot {" ++
    ln "        path: path_str," ++
    ln "        filename," ++
    ln "        timestamp: now," ++
    ln "        tags: vec![]," ++
    ln "    })" /\
  transform (transform capture_rs) =
    ln "    Ok(Screenshot {" ++
    ln "        path: path_str," ++
    ln "        filename," ++
    ln "        timestamp: now," ++
    ln "        tags: vec![]," ++
    ln "        tags: vec![]," ++
    ln "    })" /\
  occurrences tags_default (transform screenshot_rs) = 1 /\
  occurrences tags_default (transform (transform screenshot_rs)) = 2.
Proof. now vm_compute. Qed.

(* ================================================================== *)
(** * Counting occurrences through the edits *)
(* ================================================================== *)

Section Counting.

Variable b : str.
Hypothesis b_not_nil : b <> [].

Lemma occurrences_cons c s :
  occurrences b (c :: s) =
  (if starts_with b (c :: s) then 1 else 0) + occurrences b s.
Proof. reflexivity. Qed.

Lemma occurrences_nil : occurrences b [] = 0.
Proof. destruct b; [congruence | reflexivity]. Qed.

Lemma starts_with_mono w z :
  starts_with b w = true -> starts_with b (w ++ z) = true.
Proof.
  intros H. apply starts_with_true in H as [t ->].
  rewrite <- app_assoc. apply starts_with_app.
Qed.

Lemma occurrences_zero s : occurrences b s = 0 <-> contains b s = false.
Proof.
  unfold contains. induction s as [|c s IH].
  - rewrite occurrences_nil. simpl. destruct b; [congruence|]. now split.
  - rewrite occurrences_cons, find_cons.
    destruct (starts_with b (c :: s)); [split; [lia | discriminate]|].
    destruct (find b s); simpl in *; split; intros H;
      try discriminate; try reflexivity;
      destruct IH as [I1 I2]; try (now apply I1); now apply I2 in H.
Qed.

(** Occurrences of the two parts are occurrences of the whole. *)
Lemma occurrences_app_ge u w :
  occurrences b u + occurrences b w <= occurrences b (u ++ w).
Proof.
  induction u as [|c u IH].
  - rewrite occurrences_nil. simpl. lia.
  - simpl app. rewrite !occurrences_cons.
    destruct (starts_with b (c :: u)) eqn:E.
    + change (c :: u ++ w) with ((c :: u) ++ w).
      rewrite (starts_with_mono _ w E). lia.
    + destruct (starts_with b (c :: u ++ w)); lia.
Qed.

(** A text that no occurrence reaches into from the left. *)
Lemma occurrences_cross p u z :
  u <> [] -> no_cross b u = true ->
  occurrences b (p ++ u ++ z) = occurrences b p + occurrences b (u ++ z).
Proof.
  intros U C. induction p as [|c p IH].
  - now rewrite occurrences_nil.
  - simpl app. rewrite !occurrences_cons, IH.
    destruct (starts_with b (c :: p ++ u ++ z)) eqn:E.
    + apply (no_cross_reach b c p u z U C) in E. rewrite E. lia.
    + destruct (starts_with b (c :: p)) eqn:E'; [|lia].
      apply (starts_with_mono _ (u ++ z)) in E'. simpl in E'. congruence.
Qed.

(** A text in which no occurrence starts. *)
Lemma occurrences_no_start u z :
  no_start b u = true -> occurrences b (u ++ z) = occurrences b z.
Proof.
  induction u as [|c u IH]; intros N; [reflexivity|].
  simpl in N. apply andb_prop in N as [N1 N2].
  simpl app. rewrite occurrences_cons, (IH N2).
  destruct (starts_with b (c :: u ++ z)) eqn:E; [|reflexivity].
  destruct (starts_with_app_inv b (c :: u) z E) as [?|C];
    [discriminate | now rewrite C in N1].
Qed.

Lemma starts_with_length w : starts_with b w = true -> length b <= length w.
Proof.
  intros H. apply starts_with_true in H as [t ->]. rewrite length_app. lia.
Qed.

Lemma occurrences_inner u z :
  no_exit b u = true ->
  occurrences b (u ++ z) = occurrences b u + occurrences b z.
Proof.
  induction u as [|c u IH]; intros N.
  - now rewrite occurrences_nil.
  - cbn [no_exit] in N. apply andb_prop in N as [N1 N2].
    simpl app. rewrite !occurrences_cons, (IH N2).
    destruct (starts_with b (c :: u)) eqn:E.
    + change (c :: u ++ z) with ((c :: u) ++ z).
      rewrite (starts_with_mono _ z E). lia.
    + destruct (starts_with b (c :: u ++ z)) eqn:E'; [|lia].
      destruct (starts_with_app_inv b (c :: u) z E') as [?|C];
        [discriminate|].
      unfold compatible in C. rewrite E in C. simpl in C. rewrite C in N1.
      simpl in N1. apply negb_true_iff, Nat.ltb_ge in N1.
      apply starts_with_true in C as [t C].
      assert (t = []).
      { apply (f_equal (@length _)) in C. rewrite length_app in C.
        destruct t; [reflexivity | simpl in *; lia]. }
      subst t. rewrite app_nil_r in C. rewrite C, starts_with_refl in E.
      discriminate.
Qed.

End Counting.

(** ** Relations that edits respect *)

Lemma re_sub_congr r repl Q :
  congruence Q -> never_empty r ->
  (forall m, matches r (whole m) [] (caps m) -> Q (whole m) (repl m)) ->
  forall s, Q s (re_sub r repl s).
Proof.
  intros [Qr Qa] NE H.
  apply (re_sub_ind r repl Q NE).
  - intros s _. apply Qr.
  - intros pre m rest _ M IH. apply Qa; [apply Qr|]. apply Qa; auto.
Qed.

Lemma str_replace_ind old new (Q : str -> str -> Prop) :
  old <> [] ->
  (forall s, find old s = None -> Q s s) ->
  (forall pre rest,
      fresh old pre -> Q rest (str_replace old new rest) ->
      Q (pre ++ old ++ rest) (pre ++ new ++ str_replace old new rest)) ->
  forall s, Q s (str_replace old new s).
Proof.
  intros O Hnone Hsome s.
  remember (length s) as n eqn:L. revert s L.
  induction n as [n IH] using lt_wf_ind; intros s ->.
  destruct (find old s) as [i|] eqn:F.
  - apply find_Some in F as (pre & rest & -> & _ & Fr).
    rewrite (str_replace_fresh old new O pre rest Fr).
    apply Hsome; [exact Fr|].
    apply (IH (length rest)); [|reflexivity].
    rewrite !length_app. destruct old; [congruence | simpl; lia].
  - rewrite (str_replace_none old new O s F). now apply Hnone.
Qed.

Lemma str_replace_congr old new Q :
  congruence Q -> old <> [] -> Q old new ->
  forall s, Q s (str_replace old new s).
Proof.
  intros [Qr Qa] O H.
  apply (str_replace_ind old new Q O).
  - intros s _. apply Qr.
  - intros pre rest _ IH. apply Qa; [apply Qr|]. apply Qa; auto.
Qed.

Section Edits.

Variable P : str.
Hypothesis P_not_nil : P <> [].

Lemma adds_app n1 n2 s1 s1' s2 s2' :
  adds_at_most P n1 s1 s1' -> adds_at_most P n2 s2 s2' ->
  adds_at_most P (n1 + n2) (s1 ++ s2) (s1' ++ s2').
Proof.
  intros H1 H2 u v.
  specialize (H1 u (s2' ++ v)). specialize (H2 (u ++ s1) v).
  rewrite <- !app_assoc in *. lia.
Qed.

Lemma adds_refl s : adds_at_most P 0 s s.
Proof. intros u v. lia. Qed.

Lemma adds_weaken n m s s' :
  n <= m -> adds_at_most P n s s' -> adds_at_most P m s s'.
Proof. intros L H u v. specialize (H u v). lia. Qed.

Lemma adds_trans n1 n2 s s' s'' :
  adds_at_most P n1 s s' -> adds_at_most P n2 s' s'' ->
  adds_at_most P (n1 + n2) s s''.
Proof. intros H1 H2 u v. specialize (H1 u v). specialize (H2 u v). lia. Qed.

Lemma adds_congruence : congruence (adds_at_most P 0).
Proof.
  split; [exact adds_refl|].
  intros s1 s1' s2 s2' H1 H2. exact (adds_app 0 0 _ _ _ _ H1 H2).
Qed.

Lemma keeps_congruence : congruence (keeps P).
Proof.
  split; [now intros s u v|].
  intros s1 s1' s2 s2' H1 H2 u v.
  specialize (H1 u (s2' ++ v)). specialize (H2 (u ++ s1) v).
  rewrite <- !app_assoc in *. congruence.
Qed.

Lemma keeps_adds s s' : keeps P s s' -> adds_at_most P 0 s s'.
Proof. intros H u v. rewrite (H u v). lia. Qed.

(** A fixed text [t] that no occurrence of [P] crosses into or out of
    brings its own occurrences and no other, whatever it replaces. *)
Lemma adds_text m t :
  t <> [] -> no_cross P t = true -> no_exit P t = true ->
  adds_at_most P (occurrences P t) m t.
Proof.
  intros T C E u v.
  rewrite (occurrences_cross P P_not_nil u t v T C).
  rewrite (occurrences_inner P P_not_nil t v E).
  pose proof (occurrences_app_ge P P_not_nil u (m ++ v)).
  pose proof (occurrences_app_ge P P_not_nil m v). lia.
Qed.

(** The same for a text in which no occurrence starts at all. *)
Lemma adds_text_none m t :
  t <> [] -> no_cross P t = true -> no_start P t = true ->
  adds_at_most P 0 m t.
Proof.
  intros T C N u v.
  rewrite (occurrences_cross P P_not_nil u t v T C).
  rewrite (occurrences_no_start P t v N).
  pose proof (occurrences_app_ge P P_not_nil u (m ++ v)).
  pose proof (occurrences_app_ge P P_not_nil m v). lia.
Qed.

(** A text [d] in which no occurrence of [P] starts, put right after a
    text [t] that no occurrence of [P] touches, changes no count. *)
Lemma keeps_after t d :
  t <> [] -> no_cross P t = true -> no_start P t = true ->
  no_start P d = true ->
  keeps P t (t ++ d).
Proof.
  intros T C N D u v.
  rewrite <- !app_assoc.
  rewrite !(occurrences_cross P P_not_nil u t) by auto.
  rewrite !(occurrences_no_start P t) by exact N.
  now rewrite (occurrences_no_start P d v D).
Qed.

End Edits.

(** Each replaced occurrence of [old] may add [n] occurrences of [P]. *)
Lemma str_replace_adds P old new n :
  P <> [] -> old <> [] -> adds_at_most P n old new ->
  forall s,
    adds_at_most P (n * occurrences old s) s (str_replace old new s).
Proof.
  intros Pn O H.
  apply (str_replace_ind old new
           (fun s s' => adds_at_most P (n * occurrences old s) s s') O).
  - intros s _. apply (adds_weaken P 0); [lia | apply adds_refl].
  - intros pre rest F IH.
    apply (adds_weaken P (0 + (n + n * occurrences old rest))).
    + pose proof (occurrences_app_ge old O pre (old ++ rest)).
      pose proof (occurrences_app_ge old O old rest).
      assert (1 <= occurrences old old).
      { destruct old as [|c o] eqn:Eo; [congruence|].
        rewrite occurrences_cons, starts_with_refl. lia. }
      nia.
    + apply adds_app; [apply adds_refl|]. now apply adds_app.
Qed.

(** ** The shape of the matches of each pattern *)

Lemma matches_Lit_inv l w e e' :
  matches (Lit l) w e e' -> w = l /\ e' = e.
Proof. intros H; inversion H; subst; auto. Qed.

Lemma matches_Star_inv m c w e e' :
  matches (Star m c) w e e' -> forallb (in_cls c) w = true /\ e' = e.
Proof. intros H; inversion H; subst; auto. Qed.

Lemma matches_Cat_inv r1 r2 w e e' :
  matches (Cat r1 r2) w e e' ->
  exists w1 w2 e1,
    w = w1 ++ w2 /\ matches r1 w1 e e1 /\ matches r2 w2 e1 e'.
Proof. intros H; inversion H; subst; eauto 6. Qed.

Lemma matches_Grp_inv n r w e e' :
  matches (Grp n r) w e e' ->
  exists e1, e' = (n, w) :: e1 /\ matches r w e e1.
Proof. intros H; inversion H; subst; eauto. Qed.

Ltac invert_matches :=
  repeat match goal with
         | H : matches (Cat _ _) _ _ _ |- _ =>
             apply matches_Cat_inv in H as (? & ? & ? & ? & ? & ?); subst
         | H : matches (Grp _ _) _ _ _ |- _ =>
             apply matches_Grp_inv in H as (? & ? & ?); subst
         | H : matches (Lit _) _ _ _ |- _ =>
             apply matches_Lit_inv in H as (? & ?); subst
         | H : matches (Star _ _) _ _ _ |- _ =>
             apply matches_Star_inv in H as (? & ?); subst
         end.

Lemma struct_shape w e :
  matches struct_pattern w [] e ->
  exists x,
    w = (struct_open ++ x ++ struct_last) ++ close_brace /\
    e = [(2, close_brace); (1, struct_open ++ x ++ struct_last)].
Proof.
  unfold struct_pattern; cbn [seq_re]. intros H. invert_matches.
  eexists; split; reflexivity.
Qed.

Lemma get_screenshots_shape w e :
  matches get_screenshots_pattern w [] e ->
  exists body,
    w = header ++ body ++ close_brace /\
    e = [(3, close_brace); (2, body); (1, header)].
Proof.
  unfold get_screenshots_pattern; cbn [seq_re]. intros H. invert_matches.
  eexists; split; reflexivity.
Qed.

Lemma construction_shape w e :
  matches construction_pattern w [] e ->
  exists x y ws,
    w = (construction_open ++ x ++ filename_field ++ y ++ timestamp_field) ++
        ws ++ brace /\
    e = [(1, ws)].
Proof.
  unfold construction_pattern; cbn [seq_re]. intros H. invert_matches.
  match goal with
  | |- exists x y ws, _ ++ ?a ++ _ ++ ?b ++ _ ++ ?c ++ _ = _ /\ _ =>
      exists a, b, c
  end.
  split; [|reflexivity]. now rewrite <- !app_assoc.
Qed.

(** ** What each stage does to the number of occurrences *)

Lemma struct_last_not_nil : struct_last <> [].
Proof. now vm_compute. Qed.

Section StageCounts.

Variable P : str.
Hypothesis P_not_nil : P <> [].

(** Stages 1 and 4 insert a line after a field that [P] does not touch. *)
Lemma stage_struct_keeps s :
  no_cross P struct_last = true -> no_start P struct_last = true ->
  no_start P tags_decl = true ->
  keeps P s (stage_struct s).
Proof.
  intros C N D. unfold stage_struct.
  apply re_sub_congr.
  - now apply keeps_congruence.
  - apply leading_never_empty. exact struct_open_not_nil.
  - intros m M. apply struct_shape in M as (x & W & E).
    rewrite struct_repl_eq. cbn [group]. rewrite W, E. cbn [lookup Nat.eqb].
    rewrite <- !app_assoc.
    pose proof (keeps_congruence P) as [Kr Ka].
    apply Ka; [apply Kr|]. apply Ka; [apply Kr|].
    rewrite (app_assoc struct_last). apply Ka; [|apply Kr].
    apply keeps_after; auto using struct_last_not_nil.
Qed.

Lemma stage_sites_keeps s :
  no_cross P timestamp_now = true -> no_start P timestamp_now = true ->
  no_start P tags_default = true ->
  keeps P s (stage_sites s).
Proof.
  intros C N D. unfold stage_sites.
  apply re_sub_congr.
  - now apply keeps_congruence.
  - exact site_never_empty.
  - intros m _. unfold fix_other_screenshots. cbn [group].
    apply str_replace_congr.
    + now apply keeps_congruence.
    + exact timestamp_now_not_nil.
    + apply keeps_after; auto using timestamp_now_not_nil.
Qed.

Lemma pass_guard_adds s :
  no_cross P injection = true -> no_start P injection = true ->
  adds_at_most P 0 s (pass_guard s).
Proof.
  intros Ci Ni.
  apply (re_sub_congr guard_pattern _ (adds_at_most P 0)
           (adds_congruence P) guard_never_empty).
  intros m _. apply adds_text_none; auto using injection_not_nil.
Qed.

Lemma rewrite_head_not_nil : rewrite_head <> [].
Proof. now vm_compute. Qed.

Lemma pass_construction_adds s :
  no_cross P rewrite_head = true -> no_start P rewrite_head = true ->
  adds_at_most P 0 s (pass_construction s).
Proof.
  intros Cr Nr.
  apply (re_sub_congr construction_pattern _ (adds_at_most P 0)
           (adds_congruence P) construction_never_empty).
  intros m M. apply construction_shape in M as (x & y & ws & W & E).
  rewrite construction_repl_eq. cbn [group]. rewrite W, E.
  cbn [lookup Nat.eqb].
  rewrite (app_assoc tags_lookup).
  apply (congr_app _ (adds_congruence P)); [|apply adds_refl].
  apply adds_text_none; auto using rewrite_head_not_nil.
Qed.

Lemma stage_get_screenshots_adds s :
  no_cross P injection = true -> no_start P injection = true ->
  no_cross P rewrite_head = true -> no_start P rewrite_head = true ->
  adds_at_most P 0 s (stage_get_screenshots s).
Proof.
  intros Ci Ni Cr Nr.
  apply (re_sub_congr get_screenshots_pattern _ (adds_at_most P 0)
           (adds_congruence P) get_screenshots_never_empty).
  intros m M. apply get_screenshots_shape in M as (body & W & E).
  unfold replace_get_screenshots. cbn [group]. rewrite W, E.
  cbn [lookup Nat.eqb].
  apply (congr_app _ (adds_congruence P)); [apply adds_refl|].
  apply (congr_app _ (adds_congruence P)); [|apply adds_refl].
  apply (adds_trans P 0 0 _ (pass_guard body)).
  - now apply pass_guard_adds.
  - now apply pass_construction_adds.
Qed.

End StageCounts.

Lemma adds_count P n s s' :
  adds_at_most P n s s' -> occurrences P s' <= occurrences P s + n.
Proof. intros H. specialize (H [] []). now rewrite !app_nil_r in H. Qed.

Lemma keeps_count P s s' :
  keeps P s s' -> occurrences P s' = occurrences P s.
Proof. intros H. specialize (H [] []). now rewrite !app_nil_r in H. Qed.

Lemma inserted_cmd_not_nil : inserted_cmd <> [].
Proof. now vm_compute. Qed.

Lemma stage_save_cmd_unguarded s :
  contains marker s = false ->
  stage_save_cmd s = str_replace anchor (inserted_cmd ++ anchor) s.
Proof.
  intros H. unfold stage_save_cmd, inserted_cmd. rewrite H.
  now rewrite <- app_assoc.
Qed.

Lemma stage_save_cmd_anchor s :
  occurrences anchor (stage_save_cmd s) <= occurrences anchor s.
Proof.
  destruct (contains marker s) eqn:G.
  - now rewrite (stage_save_cmd_guarded s G).
  - rewrite (stage_save_cmd_unguarded s G), <- (Nat.add_0_r (occurrences anchor s)).
    apply adds_count.
    apply (str_replace_congr anchor _ (adds_at_most anchor 0)
             (adds_congruence anchor) anchor_not_nil).
    apply (congr_app _ (adds_congruence anchor) [] inserted_cmd);
      [|apply adds_refl].
    apply adds_text_none;
      [exact anchor_not_nil | exact inserted_cmd_not_nil | now vm_compute
      | now vm_compute].
Qed.

Lemma stage_save_cmd_marker s :
  occurrences marker (stage_save_cmd s) <=
  Nat.max (occurrences marker s) (occurrences anchor s).
Proof.
  destruct (contains marker s) eqn:G.
  - rewrite (stage_save_cmd_guarded s G). lia.
  - rewrite (stage_save_cmd_unguarded s G).
    assert (A : adds_at_most marker 1 anchor (inserted_cmd ++ anchor)).
    { apply (adds_app marker 1 0 [] inserted_cmd); [|apply adds_refl].
      change 1 with (occurrences marker inserted_cmd) at 1.
      apply adds_text;
        [exact marker_not_nil | exact inserted_cmd_not_nil | now vm_compute
        | now vm_compute]. }
    pose proof (adds_count _ _ _ _
                  (str_replace_adds marker anchor _ 1 marker_not_nil
                     anchor_not_nil A s)) as H.
    apply (occurrences_zero marker marker_not_nil) in G. lia.
Qed.

(** Stage 3 keeps the occurrences of a text that neither the anchor nor
    the inserted command touches. *)
Lemma stage_save_cmd_keeps P s :
  P <> [] -> no_cross P anchor = true ->
  no_cross P inserted_cmd = true -> no_start P inserted_cmd = true ->
  keeps P s (stage_save_cmd s).
Proof.
  intros Pn Ca Ci Ni.
  destruct (contains marker s) eqn:G.
  - rewrite (stage_save_cmd_guarded s G). now intros u v.
  - rewrite (stage_save_cmd_unguarded s G).
    apply (str_replace_congr anchor _ (keeps P) (keeps_congruence P)
             anchor_not_nil).
    intros u v. rewrite <- app_assoc.
    rewrite (occurrences_cross P Pn u inserted_cmd _ inserted_cmd_not_nil Ci).
    rewrite (occurrences_no_start P inserted_cmd _ Ni).
    now rewrite (occurrences_cross P Pn u anchor v anchor_not_nil Ca).
Qed.

(** ** One run, two runs *)

(** The texts the stages bring in hold neither the marker nor the anchor,
    and the fields they are put after are not part of either. *)
Lemma marker_inert :
  (no_cross marker struct_last && no_start marker struct_last &&
   no_start marker tags_decl &&
   no_cross marker injection && no_start marker injection &&
   no_cross marker rewrite_head && no_start marker rewrite_head &&
   no_cross marker timestamp_now && no_start marker timestamp_now &&
   no_start marker tags_default)%bool = true.
Proof. now vm_compute. Qed.

Lemma anchor_inert :
  (no_cross anchor struct_last && no_start anchor struct_last &&
   no_start anchor tags_decl &&
   no_cross anchor injection && no_start anchor injection &&
   no_cross anchor rewrite_head && no_start anchor rewrite_head &&
   no_cross anchor timestamp_now && no_start anchor timestamp_now &&
   no_start anchor tags_default)%bool = true.
Proof. now vm_compute. Qed.

Ltac split_checks H :=
  repeat (apply andb_prop in H; let H' := fresh "H" in destruct H as [H H']).

Lemma marker_count_struct s :
  occurrences marker (stage_struct s) = occurrences marker s.
Proof.
  pose proof marker_inert as H. split_checks H.
  apply keeps_count, stage_struct_keeps; auto using marker_not_nil.
Qed.

Lemma anchor_count_struct s :
  occurrences anchor (stage_struct s) = occurrences anchor s.
Proof.
  pose proof anchor_inert as H. split_checks H.
  apply keeps_count, stage_struct_keeps; auto using anchor_not_nil.
Qed.

Lemma marker_count_get_screenshots s :
  occurrences marker (stage_get_screenshots s) <= occurrences marker s.
Proof.
  pose proof marker_inert as H. split_checks H.
  rewrite <- (Nat.add_0_r (occurrences marker s)).
  apply adds_count, stage_get_screenshots_adds; auto using marker_not_nil.
Qed.

Lemma anchor_count_get_screenshots s :
  occurrences anchor (stage_get_screenshots s) <= occurrences anchor s.
Proof.
  pose proof anchor_inert as H. split_checks H.
  rewrite <- (Nat.add_0_r (occurrences anchor s)).
  apply adds_count, stage_get_screenshots_adds; auto using anchor_not_nil.
Qed.

Lemma marker_count_sites s :
  occurrences marker (stage_sites s) = occurrences marker s.
Proof.
  pose proof marker_inert as H. split_checks H.
  apply keeps_count, stage_sites_keeps; auto using marker_not_nil.
Qed.

Lemma anchor_count_sites s :
  occurrences anchor (stage_sites s) = occurrences anchor s.
Proof.
  pose proof anchor_inert as H. split_checks H.
  apply keeps_count, stage_sites_keeps; auto using anchor_not_nil.
Qed.

(** One run leaves no more definitions than there were definitions or
    anchors, and no more anchors than there were. *)
Lemma transform_counts content :
  occurrences marker (transform content) <=
  Nat.max (occurrences marker content) (occurrences anchor content) /\
  occurrences anchor (transform content) <= occurrences anchor content.
Proof.
  rewrite transform_unfold, marker_count_sites, anchor_count_sites.
  pose proof (stage_save_cmd_marker
                (stage_get_screenshots (stage_struct content))).
  pose proof (stage_save_cmd_anchor
                (stage_get_screenshots (stage_struct content))).
  pose proof (marker_count_get_screenshots (stage_struct content)).
  pose proof (anchor_count_get_screenshots (stage_struct content)).
  rewrite marker_count_struct, anchor_count_struct in *. lia.
Qed.

(** Two runs on [two_anchors], which holds no definition, end with two. *)
Lemma two_definitions :
  occurrences marker two_anchors = 0 /\
  occurrences marker (transform (transform two_anchors)) = 2.
Proof. now vm_compute. Qed.

(** C4 (as amended).  A buffer that already contains
    [pub fn save_screenshot_tags] somewhere is left unchanged by the
    insertion stage.  Consequently two runs never leave more definitions
    than the larger of the number of definitions and the number of anchors
    of the input; on an input with at most one definition and at most one
    anchor they never produce two definitions. *)
Theorem save_cmd_not_duplicated :
  (forall content,
      contains marker content = true -> stage_save_cmd content = content) /\
  (forall content,
      occurrences marker (transform (transform content)) <=
      Nat.max (occurrences marker content) (occurrences anchor content)) /\
  (forall content,
      occurrences marker content <= 1 -> occurrences anchor content <= 1 ->
      occurrences marker (transform (transform content)) <= 1).
Proof.
  split; [exact stage_save_cmd_guarded|].
  assert (T : forall content,
             occurrences marker (transform (transform content)) <=
             Nat.max (occurrences marker content) (occurrences anchor content)).
  { intros content.
    destruct (transform_counts content) as [M1 A1].
    destruct (transform_counts (transform content)) as [M2 _]. lia. }
  split; [exact T|].
  intros content M A. specialize (T content). lia.
Qed.

Lemma occurrences_self b : b <> [] -> 1 <= occurrences b b.
Proof.
  intros B. destruct b as [|c t] eqn:E; [congruence|].
  rewrite occurrences_cons, starts_with_refl. lia.
Qed.

Lemma occurrences_at b pre post :
  b <> [] ->
  1 + occurrences b post <= occurrences b (pre ++ b ++ post).
Proof.
  intros B.
  pose proof (occurrences_app_ge b B pre (b ++ post)).
  pose proof (occurrences_app_ge b B b post).
  pose proof (occurrences_self b B). lia.
Qed.

Lemma occurrences_split b s :
  b <> [] -> 1 <= occurrences b s ->
  exists pre post, s = pre ++ b ++ post /\ fresh b pre.
Proof.
  intros B H.
  destruct (contains b s) eqn:C.
  - unfold contains in C. destruct (find b s) as [i|] eqn:F; [|discriminate].
    apply find_Some in F as (pre & post & E & _ & Fr). eauto.
  - apply (occurrences_zero b B) in C. lia.
Qed.

(** With one anchor and no marker, stage 3 puts the command before the
    anchor and nowhere else. *)
Lemma stage_save_cmd_inserts s :
  occurrences anchor s = 1 -> contains marker s = false ->
  exists pre post,
    s = pre ++ anchor ++ post /\
    stage_save_cmd s = pre ++ save_cmd ++ nl ++ anchor ++ post /\
    occurrences marker (stage_save_cmd s) = 1.
Proof.
  intros A M.
  destruct (occurrences_split anchor s anchor_not_nil) as (pre & post & E & F);
    [lia|].
  exists pre, post. split; [exact E|].
  assert (S : stage_save_cmd s = pre ++ save_cmd ++ nl ++ anchor ++ post).
  { rewrite (stage_save_cmd_unguarded s M), E.
    rewrite (str_replace_fresh anchor _ anchor_not_nil pre post F).
    rewrite str_replace_none; [|exact anchor_not_nil|].
    - unfold inserted_cmd. now rewrite <- !app_assoc.
    - apply contains_false_find, (occurrences_zero anchor anchor_not_nil).
      pose proof (occurrences_at anchor pre post anchor_not_nil).
      rewrite <- E in *. lia. }
  split; [exact S|]. rewrite S.
  rewrite E in M.
  pose proof (contains_app_l _ _ _ M) as Mpre.
  pose proof (contains_app_r _ _ _ M) as Mpost.
  apply (occurrences_zero marker marker_not_nil) in Mpre, Mpost.
  replace (pre ++ save_cmd ++ nl ++ anchor ++ post)
    with (pre ++ inserted_cmd ++ anchor ++ post)
    by (unfold inserted_cmd; now rewrite <- !app_assoc).
  rewrite (occurrences_cross marker marker_not_nil pre inserted_cmd);
    [|exact inserted_cmd_not_nil | now vm_compute].
  rewrite (occurrences_inner marker marker_not_nil inserted_cmd);
    [|now vm_compute].
  rewrite Mpre, Mpost. now vm_compute.
Qed.

Lemma cmd_before_anchor_not_nil : cmd_before_anchor <> [].
Proof. now vm_compute. Qed.

Lemma cmd_before_anchor_sites s :
  occurrences cmd_before_anchor (stage_sites s) =
  occurrences cmd_before_anchor s.
Proof.
  apply keeps_count, stage_sites_keeps;
    [exact cmd_before_anchor_not_nil | now vm_compute ..].
Qed.


(* ================================================================== *)
(** * The rewritten construction in the output *)
(* ================================================================== *)

Lemma rewrite_head_kept s :
  occurrences rewrite_head (stage_sites (stage_save_cmd s)) =
  occurrences rewrite_head s.
Proof.
  rewrite (keeps_count rewrite_head (stage_save_cmd s)).
  - apply keeps_count, stage_save_cmd_keeps;
      [exact rewrite_head_not_nil | now vm_compute ..].
  - apply stage_sites_keeps;
      [exact rewrite_head_not_nil | now vm_compute ..].
Qed.

(** ** The engine finds a match when there is one *)

Lemma star_lazy_here c s (k : str -> result) a :
  k s = Some a -> star_lazy c s k = Some a.
Proof. intros K. destruct s; simpl; now rewrite K. Qed.

Lemma star_lazy_complete c w : forall rest (k : str -> result) a,
  forallb (in_cls c) w = true -> k rest = Some a ->
  exists a', star_lazy c (w ++ rest) k = Some a'.
Proof.
  induction w as [|ch w IH]; intros rest k a W K.
  - exists a. now apply star_lazy_here.
  - simpl in W. apply andb_prop in W as [W1 W2]. simpl.
    destruct (k (ch :: w ++ rest)) as [r|]; [now exists r|].
    rewrite W1. exact (IH rest k a W2 K).
Qed.

Lemma star_greedy_here c s (k : str -> result) a :
  k s = Some a -> exists a', star_greedy c s k = Some a'.
Proof.
  intros K. destruct s as [|ch t]; simpl; [now exists a|].
  destruct (in_cls c ch); [|now exists a].
  destruct (star_greedy c t k) as [r|]; [now exists r | now exists a].
Qed.

Lemma star_greedy_complete c w : forall rest (k : str -> result) a,
  forallb (in_cls c) w = true -> k rest = Some a ->
  exists a', star_greedy c (w ++ rest) k = Some a'.
Proof.
  induction w as [|ch w IH]; intros rest k a W K.
  - now apply (star_greedy_here c rest k a).
  - simpl in W. apply andb_prop in W as [W1 W2]. simpl. rewrite W1.
    destruct (IH rest k a W2 K) as [a' ->]. now exists a'.
Qed.

Lemma rmatch_complete r w e e' :
  matches r w e e' ->
  forall rest k a, k rest e' = Some a ->
  exists a', rmatch r (w ++ rest) e k = Some a'.
Proof.
  induction 1 as [l e|m c w e W|r1 r2 w1 w2 e e1 e2 _ IH1 _ IH2
                 |n r w e e' _ IH]; intros rest k a K; cbn [rmatch].
  - rewrite strip_prefix_app. now exists a.
  - destruct m.
    + exact (star_greedy_complete c w rest (fun rest0 => k rest0 e) a W K).
    + exact (star_lazy_complete c w rest (fun rest0 => k rest0 e) a W K).
  - rewrite <- app_assoc. destruct (IH2 rest k a K) as [a2 H2].
    exact (IH1 (w2 ++ rest) (fun rest0 e0 => rmatch r2 rest0 e0 k) a2 H2).
  - apply (IH rest
             (fun rest0 e0 => k rest0 ((n, consumed (w ++ rest) rest0) :: e0))
             a).
    now rewrite consumed_app.
Qed.

Lemma search_complete r w e : forall a rest,
  matches r w [] e ->
  exists x, search r (a ++ w ++ rest) false = Some x.
Proof.
  intros a rest M. induction a as [|c a IH].
  - destruct (rmatch_complete r w [] e M rest
                (fun rest0 e0 =>
                   if false && (length rest0 =? length (w ++ rest))
                   then None else Some (rest0, e0))
                (rest, e) eq_refl) as [[rest' e'] H].
    simpl app. rewrite (search_here r (w ++ rest) rest' e' H). eauto.
  - simpl app. cbn [search].
    destruct (match_here r (c :: a ++ w ++ rest) false) as [[? ?]|];
      [eauto|].
    destruct IH as [[[p m] r0] ->]. eauto.
Qed.

(** ** A construction in the body survives the guard pass *)

Lemma any_char w : forallb (in_cls AnyChar) w = true.
Proof. induction w; simpl; auto. Qed.

Lemma construction_matches x y ws :
  all_space ws ->
  matches construction_pattern
    (construction_open ++ x ++ filename_field ++ y ++ timestamp_field ++
     ws ++ brace) [] [(1, ws)].
Proof.
  intros W. unfold construction_pattern; cbn [seq_re].
  repeat (eapply M_Cat || apply M_Lit || apply M_Grp || apply M_Star);
    solve [apply any_char | exact W].
Qed.

Lemma guard_shape w e :
  matches guard_pattern w [] e ->
  exists w1 w2 w3,
    w = guard_text w1 w2 w3 /\ all_space w1 /\ all_space w2 /\ all_space w3.
Proof.
  unfold guard_pattern; cbn [seq_re]. intros H. invert_matches.
  match goal with
  | S1 : forallb (in_cls Space) ?a = true,
    S2 : forallb (in_cls Space) ?b = true,
    S3 : forallb (in_cls Space) ?c = true
    |- exists w1 w2 w3, _ ++ ?a ++ _ ++ ?b ++ _ ++ ?c ++ _ = _ /\ _ =>
      exists a, b, c;
      split; [reflexivity | split; [exact S1 | split; [exact S2 | exact S3]]]
  end.
Qed.

Lemma construction_shape_full w e :
  matches construction_pattern w [] e ->
  exists a ws,
    w = (a ++ timestamp_field) ++ ws ++ brace /\ all_space ws /\
    e = [(1, ws)].
Proof.
  unfold construction_pattern; cbn [seq_re]. intros H. invert_matches.
  match goal with
  | S : forallb (in_cls Space) ?c = true
    |- exists a ws, ?o ++ ?x ++ ?f ++ ?y ++ ?t ++ ?c ++ _ = _ /\ _ =>
      exists (o ++ x ++ f ++ y), c;
      split; [|split; [exact S | reflexivity]]
  end.
  now rewrite <- !app_assoc.
Qed.

Lemma carries_congruence P : congruence (carries P).
Proof.
  split.
  - intros s u v H. exact H.
  - intros s1 s1' s2 s2' H1 H2 u v H.
    rewrite <- app_assoc in H. apply (H1 u (s2 ++ v)) in H.
    rewrite app_assoc in H. apply (H2 (u ++ s1') v) in H.
    now rewrite <- !app_assoc in *.
Qed.

Lemma brace_eq : brace = [125%N].
Proof. now vm_compute. Qed.

Lemma suffix_last (g0 : str) a : forall l m,
  g0 ++ [a] = l ++ m -> m <> [] -> exists m0, m = m0 ++ [a].
Proof.
  intros l m E M.
  destruct (exists_last M) as (m0 & b & ->).
  rewrite app_assoc in E. apply app_inj_tail in E as [_ ->]. now exists m0.
Qed.

Lemma mentions_app c s t : mentions c (s ++ t) = mentions c s || mentions c t.
Proof. apply existsb_app. Qed.

Lemma mentions_intro c x y : mentions c (x ++ c :: y) = true.
Proof.
  rewrite mentions_app. cbn [mentions existsb]. rewrite N.eqb_refl.
  apply orb_true_r.
Qed.

Lemma nonspace_app s t : nonspace (s ++ t) = nonspace s ++ nonspace t.
Proof. apply filter_app. Qed.

Lemma nonspace_space w : all_space w -> nonspace w = [].
Proof.
  unfold all_space. induction w as [|c w IH]; [reflexivity|].
  simpl. intros H. apply andb_prop in H as [H1 H2]. rewrite H1. simpl. auto.
Qed.

Section EditStability.

Variables g i : str.
Hypothesis g_not_nil : g <> [].

Section Literal.

Variable L : str.
Hypothesis L_left : forall c w z,
  starts_with L ((c :: w) ++ g ++ z) = true -> starts_with L (c :: w) = true.
Hypothesis L_in : forall l m z,
  g = l ++ m -> m <> [] -> starts_with L (m ++ z) = false.

Lemma followed_by_stable P :
  stable g i P -> stable g i (followed_by L P).
Proof.
  intros SP u v (a & r & E & Pr).
  apply app_eq_app in E as [l [[Eu El]|[Ea El]]].
  - (* the occurrence starts in [u] *)
    destruct l as [|c w].
    + exfalso. simpl in El.
      pose proof (L_in [] g v eq_refl g_not_nil) as N.
      rewrite <- El, starts_with_app in N. discriminate.
    + assert (S : starts_with L ((c :: w) ++ g ++ v) = true)
        by (rewrite <- El; apply starts_with_app).
      apply L_left, starts_with_true in S as [l' S].
      rewrite S, <- app_assoc in El. apply app_inv_head in El.
      exists a, (l' ++ i ++ v). split.
      * rewrite Eu, S. now rewrite <- !app_assoc.
      * apply SP. now rewrite <- El.
  - (* the occurrence starts at or after the start of [g] *)
    apply app_eq_app in El as [m [[Eg Em]|[Eg Em]]].
    + destruct m as [|c m].
      * rewrite app_nil_r in Eg. simpl in Em. subst l.
        exists (u ++ i), r. split; [|exact Pr].
        rewrite <- Em. now rewrite <- !app_assoc.
      * exfalso.
        pose proof (L_in l (c :: m) v Eg ltac:(discriminate)) as N.
        rewrite <- Em, starts_with_app in N. discriminate.
    + exists (u ++ i ++ m), r. split; [|exact Pr].
      rewrite Em. now rewrite <- !app_assoc.
Qed.

End Literal.

Hypothesis g_head : exists c g',
  g = c :: g' /\ is_space c = false /\ c <> 125%N.

Lemma closes_stable : stable g i closes.
Proof.
  destruct g_head as (c & g' & Eg & Sc & Nc).
  intros u v (ws & b & E & W). rewrite brace_eq in *.
  apply app_eq_app in E as [l [[Eu El]|[Ea El]]].
  - destruct l as [|d l].
    + exfalso. rewrite Eg in El. simpl in El. congruence.
    + simpl in El. injection El as <- El.
      exists ws, (l ++ i ++ v). split; [|exact W].
      rewrite Eu, brace_eq. rewrite <- !app_assoc. reflexivity.
  - exfalso. destruct l as [|d l].
    + rewrite Eg in El. simpl in El. congruence.
    + rewrite Eg in El. simpl in El. injection El as <- _.
      unfold all_space in W. rewrite Ea, forallb_app in W.
      apply andb_prop in W as [_ W]. simpl in W.
      rewrite Sc in W. discriminate.
Qed.

End EditStability.

Section GuardEdit.

Variables w1 w2 w3 : str.
Hypothesis W1 : all_space w1.
Hypothesis W2 : all_space w2.
Hypothesis W3 : all_space w3.

Lemma guard_text_not_nil : guard_text w1 w2 w3 <> [].
Proof.
  unfold guard_text. replace guard_let with (108%N :: tl guard_let)
    by now vm_compute.
  discriminate.
Qed.

Lemma guard_text_head : exists c g',
  guard_text w1 w2 w3 = c :: g' /\ is_space c = false /\ c <> 125%N.
Proof.
  exists 108%N, (tl guard_let ++ w1 ++ guard_if ++ w2 ++ guard_return ++
                 w3 ++ brace).
  split; [|split; [reflexivity | discriminate]].
  unfold guard_text. replace guard_let with (108%N :: tl guard_let) at 1
    by now vm_compute.
  reflexivity.
Qed.

Lemma guard_text_nonspace :
  nonspace (guard_text w1 w2 w3) =
  nonspace guard_let ++ nonspace guard_if ++ nonspace guard_return ++
  nonspace brace.
Proof.
  unfold guard_text. rewrite !nonspace_app.
  now rewrite (nonspace_space w1 W1), (nonspace_space w2 W2),
    (nonspace_space w3 W3).
Qed.

Lemma guard_text_last :
  guard_text w1 w2 w3 =
  (guard_let ++ w1 ++ guard_if ++ w2 ++ guard_return ++ w3) ++ [125%N].
Proof. unfold guard_text. rewrite brace_eq. now rewrite <- !app_assoc. Qed.

(** A literal without [}] that does not occur in the guard's text, spaces
    apart, and that no start of the guard completes, neither starts nor
    ends inside a guard clause. *)
Lemma guard_apart L :
  no_cross L guard_let = true ->
  mentions 125%N L = false ->
  contains (nonspace L)
    (nonspace guard_let ++ nonspace guard_if ++ nonspace guard_return ++
     nonspace brace) = false ->
  (forall c w z,
      starts_with L ((c :: w) ++ guard_text w1 w2 w3 ++ z) = true ->
      starts_with L (c :: w) = true) /\
  (forall l m z,
      guard_text w1 w2 w3 = l ++ m -> m <> [] ->
      starts_with L (m ++ z) = false).
Proof.
  intros C B N. split.
  - intros c w z S. unfold guard_text in S. rewrite <- !app_assoc in S.
    apply (no_cross_reach L c w guard_let _) in S; auto.
    replace guard_let with (108%N :: tl guard_let) by now vm_compute.
    discriminate.
  - intros l m z E M.
    destruct (starts_with L (m ++ z)) eqn:S; [exfalso|reflexivity].
    apply starts_with_true in S as [t S].
    apply app_eq_app in S as [k [[Em _]|[EL _]]].
    + (* all of [L] lies in the guard *)
      rewrite Em in E.
      apply (f_equal nonspace) in E.
      rewrite guard_text_nonspace, !nonspace_app in E.
      rewrite E, contains_intro in N. discriminate.
    + (* [L] runs over the end of the guard *)
      rewrite guard_text_last in E.
      destruct (suffix_last _ _ _ _ E M) as [m0 ->].
      rewrite EL, <- app_assoc in B. simpl in B.
      rewrite mentions_intro in B. discriminate.
Qed.

Lemma guard_edit_construction :
  stable (guard_text w1 w2 w3) injection has_construction.
Proof.
  unfold has_construction.
  destruct (guard_apart construction_open) as [A1 A2]; [now vm_compute ..|].
  destruct (guard_apart filename_field) as [B1 B2]; [now vm_compute ..|].
  destruct (guard_apart timestamp_field) as [C1 C2]; [now vm_compute ..|].
  apply (followed_by_stable _ _ guard_text_not_nil _ A1 A2).
  apply (followed_by_stable _ _ guard_text_not_nil _ B1 B2).
  apply (followed_by_stable _ _ guard_text_not_nil _ C1 C2).
  apply closes_stable. exact guard_text_head.
Qed.

End GuardEdit.

Lemma pass_guard_has_construction body :
  has_construction body -> has_construction (pass_guard body).
Proof.
  intros H.
  assert (Q : carries has_construction body (pass_guard body)).
  { apply (re_sub_congr guard_pattern _ (carries has_construction)
             (carries_congruence has_construction) guard_never_empty).
    intros m M. apply guard_shape in M as (w1 & w2 & w3 & -> & S1 & S2 & S3).
    exact (guard_edit_construction w1 w2 w3 S1 S2 S3). }
  specialize (Q [] []). rewrite !app_nil_r in Q. exact (Q H).
Qed.

Lemma has_construction_matches s :
  has_construction s ->
  exists a w e b, s = a ++ w ++ b /\ matches construction_pattern w [] e.
Proof.
  intros (a & r1 & -> & x & r2 & -> & y & r3 & -> & ws & b & -> & W).
  exists a,
    (construction_open ++ x ++ filename_field ++ y ++ timestamp_field ++
     ws ++ brace), [(1, ws)], b.
  split; [now rewrite <- !app_assoc|]. now apply construction_matches.
Qed.

(** A body with a construction comes out of the two passes with the lookup
    and the four fields, then whitespace and [}]. *)
Lemma passes_tag_construction body :
  has_construction body ->
  exists u ws v,
    all_space ws /\
    pass_construction (pass_guard body) =
    u ++ tags_lookup ++ construction_fields ++ ws ++ brace ++ v.
Proof.
  intros H. apply pass_guard_has_construction in H.
  apply has_construction_matches in H as (a & w & e & b & E & M).
  destruct (search_complete construction_pattern w e a b M)
    as [[[p m] r] S].
  rewrite <- E in S.
  pose proof (search_sound _ _ _ _ _ _ S) as (_ & Mm & _).
  assert (Wn : whole m <> []).
  { intros Z. rewrite Z in Mm. eapply construction_never_empty, Mm. }
  apply construction_shape_full in Mm as (a' & ws & Ew & W & Ec).
  exists p, ws, (pass_construction r). split; [exact W|].
  unfold pass_construction at 1.
  rewrite (re_sub_some _ _ _ _ _ _ S Wn), construction_repl_eq.
  cbn [group]. rewrite Ec. cbn [lookup Nat.eqb].
  now rewrite <- !app_assoc.
Qed.


(* ================================================================== *)
(** * The guard inside the injected text *)
(* ================================================================== *)

Lemma injection_split :
  injection =
  inj_head ++
  guard_text (nl ++ lit "    ") (nl ++ lit "        ") (nl ++ lit "    ") ++
  sidecar_loading.
Proof. now vm_compute. Qed.

Lemma absent_no_start b u : no_start b u = true -> absent_before b u.
Proof. intros N v. now apply find_no_start. Qed.

Lemma pass_guard_again b0 rest :
  contains guard_let b0 = false ->
  pass_guard (b0 ++ injection ++ rest) =
  b0 ++ reinjected ++ pass_guard rest.
Proof.
  intros H. rewrite injection_split at 1.
  replace (b0 ++ (inj_head ++ guard_text (nl ++ lit "    ")
                    (nl ++ lit "        ") (nl ++ lit "    ") ++
                  sidecar_loading) ++ rest)
    with ((b0 ++ inj_head) ++
          guard_text (nl ++ lit "    ") (nl ++ lit "        ")
            (nl ++ lit "    ") ++ sidecar_loading ++ rest)
    by now rewrite <- !app_assoc.
  assert (F : fresh guard_let (b0 ++ inj_head)).
  { rewrite <- (app_nil_r inj_head).
    apply fresh_isolated; auto using fresh_nil; now vm_compute. }
  rewrite (pass_guard_step _ _ _ _ _ F);
    [|now vm_compute|now vm_compute|now vm_compute].
  unfold pass_guard at 1.
  rewrite (re_sub_skip guard_pattern _ guard_never_empty sidecar_loading).
  - unfold reinjected. now rewrite <- !app_assoc.
  - apply absent_no_start. now vm_compute.
Qed.

Lemma reinjected_absent b0 :
  contains construction_open b0 = false ->
  absent_before construction_open (b0 ++ reinjected).
Proof. apply absent_isolated; now vm_compute. Qed.


(* ================================================================== *)
(** * The theorems at work on the sample texts *)
(* ================================================================== *)

Lemma struct_field_inserted_minimal :
  fresh (lit "pub struct Screenshot {") [] /\
  fresh (lit "pub timestamp: u64," ++ nl ++ lit "}") minimal_mid /\
  search struct_pattern nl false = None /\
  stage_struct
    ([] ++ lit "pub struct Screenshot {" ++ minimal_mid ++
     lit "pub timestamp: u64," ++ nl ++ lit "}" ++ nl) =
  [] ++ lit "pub struct Screenshot {" ++ minimal_mid ++
  lit "pub timestamp: u64," ++ nl ++ lit "    pub tags: Vec<String>," ++
  nl ++ lit "}" ++ nl.
Proof.
  assert (H1 : fresh (lit "pub struct Screenshot {") [])
    by (vm_compute; reflexivity).
  assert (H2 : fresh (lit "pub timestamp: u64," ++ nl ++ lit "}") minimal_mid)
    by (vm_compute; reflexivity).
  assert (H3 : search struct_pattern nl false = None)
    by (vm_compute; reflexivity).
  exact (conj H1 (conj H2 (conj H3
           (struct_field_inserted [] minimal_mid nl H1 H2 H3)))).
Defined.

Lemma screenshot_rs_parts :
  screenshot_rs = rs_pre ++ header ++ rs_body ++ close_brace ++ rs_post.
Proof. vm_compute. reflexivity. Qed.


Lemma no_pattern_no_change_plain :
  search struct_pattern plain_rs false = None /\
  search get_screenshots_pattern plain_rs false = None /\
  contains anchor plain_rs = false /\
  search site_pattern plain_rs false = None /\
  transform plain_rs = plain_rs /\
  (forall f, readable f = Some plain_rs -> writable f = true ->
             run f = Written plain_rs) /\
  (forall f, run f = Raised <-> readable f = None \/ writable f = false).
Proof.
  assert (H1 : search struct_pattern plain_rs false = None)
    by (vm_compute; reflexivity).
  assert (H2 : search get_screenshots_pattern plain_rs false = None)
    by (vm_compute; reflexivity).
  assert (H3 : contains anchor plain_rs = false) by (vm_compute; reflexivity).
  assert (H4 : search site_pattern plain_rs false = None)
    by (vm_compute; reflexivity).
  exact (conj H1 (conj H2 (conj H3 (conj H4
           (no_pattern_no_change plain_rs H1 H2 H3 H4))))).
Defined.

Lemma capture_rs_sites : capture_rs = with_sites capture_sites nl.
Proof. vm_compute. reflexivity. Qed.

Lemma sites_all_fixed_capture :
  Forall (is_fsite (lit "Ok(Screenshot {") (lit "timestamp: now,")
            (lit "})")) capture_fsites /\
  search site_pattern nl false = None /\
  stage_sites
    (sites_text (lit "Ok(Screenshot {") (lit "timestamp: now,") []
       (lit "})") capture_fsites nl) =
  sites_text (lit "Ok(Screenshot {") (lit "timestamp: now,")
    (nl ++ lit "        tags: vec![],") (lit "})") capture_fsites nl /\
  forall content,
    stage_save_cmd (stage_get_screenshots (stage_struct content)) =
    sites_text (lit "Ok(Screenshot {") (lit "timestamp: now,") []
      (lit "})") capture_fsites nl ->
    transform content =
    sites_text (lit "Ok(Screenshot {") (lit "timestamp: now,")
      (nl ++ lit "        tags: vec![],") (lit "})") capture_fsites nl.
Proof.
  assert (H1 : Forall (is_fsite (lit "Ok(Screenshot {")
                         (lit "timestamp: now,") (lit "})")) capture_fsites).
  { constructor; [|constructor].
    split; [discriminate|].
    split; [vm_compute; reflexivity|].
    split; [repeat constructor; vm_compute; reflexivity|].
    split; vm_compute; reflexivity. }
  assert (H2 : search site_pattern nl false = None)
    by (vm_compute; reflexivity).
  exact (conj H1 (conj H2 (sites_all_fixed capture_fsites nl H1 H2))).
Defined.

Lemma construction_rewritten_fixed_other_path :
  fresh construction_open (nl ++ lit "            ") /\
  fresh filename_field
    (nl ++ ln "                path: entry.path().display().to_string()," ++
     lit "                ") /\
  fresh timestamp_field rs_y /\
  all_space rs_ws /\
  pass_construction
    ((nl ++ lit "            ") ++
     construction
       (nl ++ ln "                path: entry.path().display().to_string()," ++
        lit "                ") rs_y rs_ws ++ []) =
  (nl ++ lit "            ") ++ tags_lookup ++ construction_fields ++ rs_ws ++
  brace ++ pass_construction [].
Proof.
  assert (H1 : fresh construction_open (nl ++ lit "            "))
    by (vm_compute; reflexivity).
  assert (H2 : fresh filename_field
                 (nl ++
                  ln "                path: entry.path().display().to_string()," ++
                  lit "                ")) by (vm_compute; reflexivity).
  assert (H3 : fresh timestamp_field rs_y) by (vm_compute; reflexivity).
  assert (H4 : all_space rs_ws) by (vm_compute; reflexivity).
  exact (conj H1 (conj H2 (conj H3 (conj H4
           (construction_rewritten_fixed _ _ _ _ [] H1 H2 H3 H4))))).
Defined.


Lemma save_cmd_not_duplicated_sample :
  contains marker (transform screenshot_rs) = true /\
  stage_save_cmd (transform screenshot_rs) = transform screenshot_rs /\
  occurrences marker screenshot_rs <= 1 /\
  occurrences anchor screenshot_rs <= 1 /\
  occurrences marker (transform (transform screenshot_rs)) <= 1.
Proof.
  assert (H1 : contains marker (transform screenshot_rs) = true)
    by (vm_compute; reflexivity).
  assert (H2 : occurrences marker screenshot_rs <= 1)
    by (vm_compute; repeat constructor).
  assert (H3 : occurrences anchor screenshot_rs <= 1)
    by (vm_compute; repeat constructor).
  destruct save_cmd_not_duplicated as (G & _ & T).
  exact (conj H1 (conj (G _ H1) (conj H2 (conj H3 (T _ H2 H3))))).
Defined.

Lemma passes_do_not_interfere_sample :
  contains construction_open inj_head = false /\
  pass_construction
    (inj_head ++ injection ++ rs_b1 ++ construction rs_x rs_y rs_ws ++ rs_b2) =
  inj_head ++ injection ++
  pass_construction (rs_b1 ++ construction rs_x rs_y rs_ws ++ rs_b2).
Proof.
  assert (H1 : contains construction_open inj_head = false)
    by (vm_compute; reflexivity).
  destruct passes_do_not_interfere as (_ & T).
  exact (conj H1 (T inj_head _ H1)).
Defined.


(* ================================================================== *)
(** * Further properties of the stages *)
(* ================================================================== *)

(** ** The last substitution *)

(** X1.  The substitution written to avoid a double add returns every buffer as
    it is, so that the transformation is the composition of the four
    stages before it. *)
Theorem win_stage_does_nothing content :
  stage_win content = content /\
  transform content =
  stage_sites (stage_save_cmd (stage_get_screenshots (stage_struct content))).
Proof.
  split.
  - apply re_sub_id; [exact win_never_empty | reflexivity].
  - unfold transform. apply re_sub_id; [exact win_never_empty | reflexivity].
Qed.

(** ** Stage 3 *)

Lemma inserted_cmd_marker : contains marker inserted_cmd = true.
Proof. vm_compute. reflexivity. Qed.

(** Once stage 3 has inserted the command, the marker is there. *)
Lemma stage_save_cmd_marks s :
  contains marker s = false -> contains anchor s = true ->
  contains marker (stage_save_cmd s) = true.
Proof.
  intros M A. rewrite (stage_save_cmd_unguarded s M).
  unfold contains in A. destruct (find anchor s) as [i|] eqn:F; [|discriminate].
  apply find_Some in F as (pre & rest & -> & _ & Fr).
  rewrite (str_replace_fresh anchor _ anchor_not_nil pre rest Fr).
  pose proof inserted_cmd_marker as I. unfold contains in I.
  destruct (find marker inserted_cmd) as [j|] eqn:Fj; [|discriminate].
  apply find_Some in Fj as (u & v & E & _ & _).
  rewrite E, <- !app_assoc, (app_assoc pre u).
  apply contains_intro.
Qed.

(** X2.  Stage 3 is idempotent on every buffer: after it has run, running it
    again changes nothing. *)
Theorem stage_save_cmd_idempotent s :
  stage_save_cmd (stage_save_cmd s) = stage_save_cmd s.
Proof.
  destruct (contains marker s) eqn:M.
  - now rewrite !(stage_save_cmd_guarded s M).
  - destruct (contains anchor s) eqn:A.
    + apply stage_save_cmd_guarded. now apply stage_save_cmd_marks.
    + now rewrite !(stage_save_cmd_no_anchor s A).
Qed.

(** Occurrences before the first one of [b] do not exist, for [b] and for
    every text that starts with [b]. *)
Lemma occurrences_fresh p b pre z :
  (forall w, starts_with p w = true -> starts_with b w = true) ->
  fresh b pre ->
  occurrences p (pre ++ b ++ z) = occurrences p (b ++ z).
Proof.
  intros Hp. induction pre as [|c pre IH]; intros F; [reflexivity|].
  simpl app. rewrite occurrences_cons.
  pose proof (fresh_cons_ext b c pre z F) as N.
  destruct (starts_with p (c :: pre ++ b ++ z)) eqn:E.
  - apply Hp in E. congruence.
  - apply fresh_cons in F as [_ F]. now rewrite (IH F).
Qed.

(** A text that does not overlap itself occurs once at its own start. *)
Lemma occurrences_head b z :
  b <> [] -> no_start b (tl b) = true ->
  occurrences b (b ++ z) = 1 + occurrences b z.
Proof.
  intros B N. destruct b as [|c t] eqn:E; [congruence|].
  rewrite <- E in *. rewrite E at 2. simpl app. rewrite occurrences_cons.
  change (c :: t ++ z) with ((c :: t) ++ z). rewrite <- E.
  rewrite starts_with_app. f_equal.
  rewrite E in N. simpl tl in N. rewrite <- E in N.
  now apply occurrences_no_start.
Qed.

Lemma starts_with_prefix b d w :
  starts_with (b ++ d) w = true -> starts_with b w = true.
Proof.
  intros H. apply starts_with_true in H as [r ->].
  rewrite <- app_assoc. apply starts_with_app.
Qed.

Lemma occurrences_extension_le b d s :
  occurrences (b ++ d) s <= occurrences b s.
Proof.
  induction s as [|c s IH]; simpl.
  - destruct (starts_with (b ++ d) []) eqn:E; [|lia].
    now rewrite (starts_with_prefix _ _ _ E).
  - destruct (starts_with (b ++ d) (c :: s)) eqn:E.
    + rewrite (starts_with_prefix _ _ _ E). lia.
    + destruct (starts_with b (c :: s)); lia.
Qed.

(** X3.  With no marker in the buffer, stage 3 leaves exactly one definition
    per anchor. *)
Theorem one_definition_per_anchor s :
  contains marker s = false ->
  occurrences marker (stage_save_cmd s) = occurrences anchor s.
Proof.
  intros M. rewrite (stage_save_cmd_unguarded s M). revert M.
  apply (str_replace_ind anchor (inserted_cmd ++ anchor)
           (fun s s' => contains marker s = false ->
                        occurrences marker s' = occurrences anchor s)
           anchor_not_nil).
  - intros s0 F M.
    apply (occurrences_zero marker marker_not_nil) in M. rewrite M.
    symmetry. apply (occurrences_zero anchor anchor_not_nil).
    unfold contains. now rewrite F.
  - intros pre rest F IH M.
    pose proof (contains_app_l _ _ _ M) as Mpre.
    pose proof (contains_app_r _ _ _ (contains_app_r _ _ _ M)) as Mrest.
    apply (occurrences_zero marker marker_not_nil) in Mpre.
    rewrite <- app_assoc.
    rewrite (occurrences_cross marker marker_not_nil pre inserted_cmd);
      [|exact inserted_cmd_not_nil | now vm_compute].
    rewrite (occurrences_inner marker marker_not_nil inserted_cmd);
      [|now vm_compute].
    rewrite (occurrences_no_start marker anchor); [|now vm_compute].
    rewrite Mpre, (IH Mrest).
    rewrite (occurrences_fresh anchor anchor pre rest (fun w H => H) F).
    rewrite (occurrences_head anchor rest anchor_not_nil); [|now vm_compute].
    replace (occurrences marker inserted_cmd) with 1 by now vm_compute.
    reflexivity.
Qed.

Lemma one_definition_per_anchor_two :
  contains marker two_anchors = false /\
  occurrences marker (stage_save_cmd two_anchors) =
  occurrences anchor two_anchors.
Proof.
  assert (H : contains marker two_anchors = false)
    by (vm_compute; reflexivity).
  exact (conj H (one_definition_per_anchor two_anchors H)).
Defined.

(** X4.  No run adds an occurrence of the anchor text. *)
Theorem anchor_never_added content :
  occurrences anchor (transform content) <= occurrences anchor content.
Proof. exact (proj2 (transform_counts content)). Qed.

(** ** Stages that only insert *)

Lemma subseq_refl s : subseq s s.
Proof. induction s; constructor; auto. Qed.

Lemma subseq_nil_l t : subseq [] t.
Proof. induction t; constructor; auto. Qed.

Lemma subseq_app s1 t1 s2 t2 :
  subseq s1 t1 -> subseq s2 t2 -> subseq (s1 ++ s2) (t1 ++ t2).
Proof.
  intros H1 H2. induction H1; simpl; [exact H2 | |]; constructor; auto.
Qed.

Lemma subseq_congruence : congruence subseq.
Proof. split; [exact subseq_refl | exact subseq_app]. Qed.

Lemma subseq_insert g1 d g2 : subseq (g1 ++ g2) (g1 ++ d ++ g2).
Proof.
  apply subseq_app; [apply subseq_refl|].
  apply (subseq_app [] d g2 g2); [apply subseq_nil_l | apply subseq_refl].
Qed.

Lemma subseq_length s t : subseq s t -> length s <= length t.
Proof. induction 1; simpl; lia. Qed.

(** X5.  The struct stage, the command stage and the site stage only put text
    in: every buffer is kept, character by character and in order, inside
    what they return, which is therefore never shorter. *)
Theorem inserting_stages_keep_text s :
  (subseq s (stage_struct s) /\ length s <= length (stage_struct s)) /\
  (subseq s (stage_save_cmd s) /\ length s <= length (stage_save_cmd s)) /\
  (subseq s (stage_sites s) /\ length s <= length (stage_sites s)).
Proof.
  assert (H1 : subseq s (stage_struct s)).
  { apply (re_sub_congr struct_pattern _ subseq subseq_congruence).
    - apply leading_never_empty. exact struct_open_not_nil.
    - intros m M. apply struct_shape in M as (x & W & E).
      rewrite struct_repl_eq. cbn [group]. rewrite W, E. cbn [lookup Nat.eqb].
      apply subseq_insert. }
  assert (H2 : subseq s (stage_save_cmd s)).
  { destruct (contains marker s) eqn:M.
    - rewrite (stage_save_cmd_guarded s M). apply subseq_refl.
    - rewrite (stage_save_cmd_unguarded s M).
      apply (str_replace_congr anchor _ subseq subseq_congruence
               anchor_not_nil).
      apply (subseq_app [] inserted_cmd anchor anchor);
        [apply subseq_nil_l | apply subseq_refl]. }
  assert (H3 : subseq s (stage_sites s)).
  { apply (re_sub_congr site_pattern _ subseq subseq_congruence
             site_never_empty).
    intros m _. unfold fix_other_screenshots. cbn [group].
    apply (str_replace_congr timestamp_now _ subseq subseq_congruence
             timestamp_now_not_nil).
    rewrite <- (app_nil_r timestamp_now) at 1.
    apply subseq_app; [apply subseq_refl | apply subseq_nil_l]. }
  auto using subseq_length.
Qed.

(** ** Every field of a site *)

Lemma timestamp_with_default_not_nil : timestamp_with_default <> [].
Proof. now vm_compute. Qed.

Lemma replace_counts_fields s :
  occurrences timestamp_with_default
    (str_replace timestamp_now timestamp_with_default s) =
  occurrences timestamp_now s /\
  occurrences timestamp_now
    (str_replace timestamp_now timestamp_with_default s) =
  occurrences timestamp_now s.
Proof.
  apply (str_replace_ind timestamp_now timestamp_with_default
           (fun s s' =>
              occurrences timestamp_with_default s' =
              occurrences timestamp_now s /\
              occurrences timestamp_now s' = occurrences timestamp_now s)
           timestamp_now_not_nil).
  - intros s0 F. split; [|reflexivity].
    assert (Z : occurrences timestamp_now s0 = 0).
    { apply (occurrences_zero _ timestamp_now_not_nil).
      unfold contains. now rewrite F. }
    pose proof (occurrences_extension_le timestamp_now tags_default s0) as L.
    fold timestamp_with_default in L. lia.
  - intros pre rest F [IH1 IH2].
    rewrite (occurrences_fresh timestamp_now timestamp_now pre rest
               (fun w H => H) F).
    rewrite (occurrences_head timestamp_now rest timestamp_now_not_nil);
      [|now vm_compute].
    split.
    + unfold timestamp_with_default at 2. rewrite <- app_assoc.
      rewrite (occurrences_fresh timestamp_with_default timestamp_now pre _
                 (starts_with_prefix timestamp_now tags_default) F).
      rewrite app_assoc. fold timestamp_with_default.
      rewrite (occurrences_head timestamp_with_default _
                 timestamp_with_default_not_nil); [|now vm_compute].
      now rewrite IH1.
    + unfold timestamp_with_default at 1. rewrite <- app_assoc.
      rewrite (occurrences_fresh timestamp_now timestamp_now pre _
                 (fun w H => H) F).
      rewrite (occurrences_head timestamp_now _ timestamp_now_not_nil);
        [|now vm_compute].
      rewrite (occurrences_no_start timestamp_now tags_default);
        [|now vm_compute].
      now rewrite IH2.
Qed.

(** X6.  In what [fix_other_screenshots] returns for a match, every
    [timestamp: now,] is followed by the default: there are as many
    [timestamp: now,] with [tags: vec![],] after them as the match had
    [timestamp: now,] fields, and no field is added or lost. *)
Theorem every_field_gets_default m :
  occurrences timestamp_with_default (fix_other_screenshots m) =
  occurrences timestamp_now (whole m) /\
  occurrences timestamp_now (fix_other_screenshots m) =
  occurrences timestamp_now (whole m).
Proof. exact (replace_counts_fields (whole m)). Qed.

(** ** A second run of the struct stage *)

(** A match of the struct pattern ends with the last field and the closing
    delimiter. *)
Lemma struct_search_end s adv pre m rest :
  search struct_pattern s adv = Some (pre, m, rest) ->
  exists x, s = (pre ++ struct_open ++ x) ++ struct_end ++ rest.
Proof.
  intros S. apply search_sound in S as (E & M & _).
  apply struct_shape in M as (x & W & _). exists x.
  rewrite E, W. unfold struct_end. now rewrite <- !app_assoc.
Qed.

Lemma struct_search_needs_end pre r :
  fresh struct_open pre -> contains struct_end r = false ->
  search struct_pattern (pre ++ struct_open ++ r) false = None.
Proof.
  intros F N.
  rewrite (search_fresh struct_pattern struct_open pre r eq_refl F).
  destruct (search struct_pattern (struct_open ++ r) false)
    as [[[p m] rest]|] eqn:S; [|reflexivity].
  apply struct_search_end in S as (x & E).
  apply (f_equal (skipn (length struct_open))) in E.
  rewrite skipn_app_exact, skipn_app in E.
  replace (length struct_open - length (p ++ struct_open ++ x)) with 0 in E
    by (rewrite !length_app; lia).
  simpl skipn in E. rewrite E, contains_intro in N. discriminate.
Qed.

(** Before the first end of a struct, replacing what follows its first
    line break changes no occurrence of that end. *)
Lemma occurrences_same_head b h mid z :
  (exists t, b = h ++ t) -> length b <= S (length h) ->
  fresh b mid ->
  occurrences b (mid ++ h ++ z) = occurrences b (h ++ z).
Proof.
  intros [t ->] L. induction mid as [|c mid IH]; intros F; [reflexivity|].
  simpl app. rewrite occurrences_cons.
  pose proof (fresh_cons_ext (h ++ t) c mid [] F) as N.
  rewrite <- app_assoc in N.
  change (c :: mid ++ h ++ t ++ []) with ((c :: mid) ++ h ++ t ++ []) in N.
  rewrite (app_assoc (c :: mid) h), starts_with_long in N
    by (rewrite !length_app in *; simpl; lia).
  change (c :: mid ++ h ++ z) with ((c :: mid) ++ h ++ z).
  rewrite (app_assoc (c :: mid) h), starts_with_long
    by (rewrite !length_app in *; simpl; lia).
  rewrite N. apply fresh_cons in F as [_ F]. now rewrite (IH F).
Qed.

Lemma struct_end_not_nil : struct_end <> [].
Proof. now vm_compute. Qed.

Lemma struct_end_gone mid post :
  fresh struct_end mid -> contains struct_end post = false ->
  contains struct_end (mid ++ struct_end_tagged ++ post) = false.
Proof.
  intros F N. apply (occurrences_zero struct_end struct_end_not_nil).
  apply (occurrences_zero struct_end struct_end_not_nil) in N.
  replace struct_end_tagged
    with (struct_head ++ lit "    pub tags: Vec<String>," ++ close_brace)
    by now vm_compute.
  rewrite <- app_assoc.
  rewrite (occurrences_same_head struct_end struct_head mid _
             (ex_intro _ brace eq_refl) (le_n _) F).
  rewrite app_assoc.
  replace (struct_head ++ lit "    pub tags: Vec<String>," ++ close_brace)
    with struct_end_tagged by now vm_compute.
  rewrite (occurrences_no_start struct_end struct_end_tagged);
    [exact N | now vm_compute].
Qed.

(** X7.  On a buffer with one [Screenshot] definition and no other
    [pub timestamp: u64,] directly before a newline and [}] after it, the
    struct stage is idempotent: it adds the declaration once, and applied
    to its own output it adds nothing. *)
Theorem struct_stage_idempotent pre mid post :
  fresh struct_open pre ->
  fresh struct_end mid ->
  contains struct_end post = false ->
  stage_struct
    (pre ++ struct_open ++ mid ++ struct_last ++ close_brace ++ post) =
  pre ++ struct_open ++ mid ++ struct_last ++ tags_decl ++ close_brace ++
  post /\
  stage_struct
    (pre ++ struct_open ++ mid ++ struct_last ++ tags_decl ++ close_brace ++
     post) =
  pre ++ struct_open ++ mid ++ struct_last ++ tags_decl ++ close_brace ++
  post.
Proof.
  intros Fp Fm N. split.
  - rewrite (stage_struct_step pre mid post Fp Fm).
    do 6 f_equal. apply re_sub_none.
    destruct (search struct_pattern post false) as [[[p m] r]|] eqn:S;
      [|reflexivity].
    apply struct_search_end in S as (x & E).
    rewrite E, contains_intro in N. discriminate.
  - apply re_sub_none.
    apply (struct_search_needs_end pre _ Fp).
    pose proof (struct_end_gone mid post Fm N) as G.
    unfold struct_end_tagged in G. now rewrite <- !app_assoc in G.
Qed.

Lemma struct_stage_idempotent_minimal :
  fresh struct_open [] /\
  fresh struct_end minimal_mid /\
  contains struct_end nl = false /\
  stage_struct
    ([] ++ struct_open ++ minimal_mid ++ struct_last ++ close_brace ++ nl) =
  [] ++ struct_open ++ minimal_mid ++ struct_last ++ tags_decl ++
  close_brace ++ nl /\
  stage_struct
    ([] ++ struct_open ++ minimal_mid ++ struct_last ++ tags_decl ++
     close_brace ++ nl) =
  [] ++ struct_open ++ minimal_mid ++ struct_last ++ tags_decl ++
  close_brace ++ nl.
Proof.
  assert (H1 : fresh struct_open []) by (vm_compute; reflexivity).
  assert (H2 : fresh struct_end minimal_mid) by (vm_compute; reflexivity).
  assert (H3 : contains struct_end nl = false) by (vm_compute; reflexivity).
  exact (conj H1 (conj H2 (conj H3
           (struct_stage_idempotent [] minimal_mid nl H1 H2 H3)))).
Defined.

(** ** Edits of the whole transformation *)

Section TransformEdits.

Variable Q : str -> str -> Prop.
Hypothesis Q_congruence : congruence Q.
Hypothesis Q_trans : forall a b c, Q a b -> Q b c -> Q a c.
Hypothesis Q_injection : forall w, Q w injection.
Hypothesis Q_rewrite_head : forall w, Q w rewrite_head.
Hypothesis Q_tags_decl : Q [] tags_decl.
Hypothesis Q_inserted_cmd : Q [] inserted_cmd.
Hypothesis Q_tags_default : Q [] tags_default.

Let Qr := congr_refl Q Q_congruence.
Let Qa := congr_app Q Q_congruence.

Lemma stage_struct_edit s : Q s (stage_struct s).
Proof.
  apply (re_sub_congr struct_pattern _ Q Q_congruence).
  - apply leading_never_empty. exact struct_open_not_nil.
  - intros m M. apply struct_shape in M as (x & W & E).
    rewrite struct_repl_eq. cbn [group]. rewrite W, E. cbn [lookup Nat.eqb].
    apply Qa; [apply Qr|].
    apply (Qa [] tags_decl close_brace close_brace); [exact Q_tags_decl|].
    apply Qr.
Qed.

Lemma stage_get_screenshots_edit s : Q s (stage_get_screenshots s).
Proof.
  apply (re_sub_congr get_screenshots_pattern _ Q Q_congruence
           get_screenshots_never_empty).
  intros m M. apply get_screenshots_shape in M as (body & W & E).
  unfold replace_get_screenshots. cbn [group]. rewrite W, E.
  cbn [lookup Nat.eqb].
  apply Qa; [apply Qr|]. apply Qa; [|apply Qr].
  apply (Q_trans _ (pass_guard body)).
  - apply (re_sub_congr guard_pattern _ Q Q_congruence guard_never_empty).
    intros m0 _. apply Q_injection.
  - apply (re_sub_congr construction_pattern _ Q Q_congruence
             construction_never_empty).
    intros m0 M0. apply construction_shape in M0 as (x & y & ws & W0 & E0).
    rewrite construction_repl_eq. cbn [group]. rewrite W0, E0.
    cbn [lookup Nat.eqb].
    rewrite (app_assoc tags_lookup).
    apply Qa; [apply Q_rewrite_head | apply Qr].
Qed.

Lemma stage_save_cmd_edit s : Q s (stage_save_cmd s).
Proof.
  destruct (contains marker s) eqn:M.
  - rewrite (stage_save_cmd_guarded s M). apply Qr.
  - rewrite (stage_save_cmd_unguarded s M).
    apply (str_replace_congr anchor _ Q Q_congruence anchor_not_nil).
    apply (Qa [] inserted_cmd anchor anchor); [exact Q_inserted_cmd|].
    apply Qr.
Qed.

Lemma stage_sites_edit s : Q s (stage_sites s).
Proof.
  apply (re_sub_congr site_pattern _ Q Q_congruence site_never_empty).
  intros m _. unfold fix_other_screenshots. cbn [group].
  apply (str_replace_congr timestamp_now _ Q Q_congruence
           timestamp_now_not_nil).
  rewrite <- (app_nil_r timestamp_now) at 1.
  apply Qa; [apply Qr | exact Q_tags_default].
Qed.

Lemma transform_edit s : Q s (transform s).
Proof.
  rewrite transform_unfold.
  eapply Q_trans; [apply stage_struct_edit|].
  eapply Q_trans; [apply stage_get_screenshots_edit|].
  eapply Q_trans; [apply stage_save_cmd_edit|].
  apply stage_sites_edit.
Qed.

End TransformEdits.

(** ** Line endings of the file *)

Lemma mentions_congruence c v :
  congruence (fun s s' => mentions c s = v -> mentions c s' = v).
Proof.
  split; [auto|].
  intros s1 s1' s2 s2' H1 H2. rewrite !mentions_app.
  destruct v, (mentions c s1), (mentions c s2); simpl; intros H;
    try discriminate; try rewrite (H1 eq_refl); try rewrite (H2 eq_refl);
    auto using orb_true_r.
Qed.

(** The texts the stages put in contain line feeds and no carriage
    return. *)
Lemma transform_no_cr s :
  mentions cr s = false -> mentions cr (transform s) = false.
Proof.
  apply (transform_edit _ (mentions_congruence cr false)); auto;
    intros; now vm_compute.
Qed.

Lemma transform_keeps_lf s :
  mentions lf s = true -> mentions lf (transform s) = true.
Proof.
  apply (transform_edit _ (mentions_congruence lf true)); auto;
    intros; try discriminate; now vm_compute.
Qed.

Lemma universal_newlines_bounded n : forall s,
  length s <= n -> mentions cr (universal_newlines s) = false.
Proof.
  induction n as [|n IH]; intros [|c s] L; simpl in L; try reflexivity;
    [lia|].
  cbn [universal_newlines].
  destruct (c =? cr)%N eqn:C.
  - destruct s as [|d s]; [reflexivity|].
    destruct (d =? lf)%N; cbn [mentions existsb]; simpl in L.
    + change (existsb (N.eqb cr) (universal_newlines s))
        with (mentions cr (universal_newlines s)).
      rewrite IH by lia. reflexivity.
    + change (existsb (N.eqb cr) (universal_newlines (d :: s)))
        with (mentions cr (universal_newlines (d :: s))).
      rewrite IH by (simpl; lia). reflexivity.
  - cbn [mentions existsb]. rewrite N.eqb_sym, C.
    change (existsb (N.eqb cr) (universal_newlines s))
      with (mentions cr (universal_newlines s)).
    now rewrite IH by lia.
Qed.

Lemma universal_newlines_no_cr s : mentions cr (universal_newlines s) = false.
Proof. exact (universal_newlines_bounded (length s) s (le_n _)). Qed.

Lemma universal_newlines_id s :
  mentions cr s = false -> universal_newlines s = s.
Proof.
  induction s as [|c s IH]; [reflexivity|].
  cbn [mentions existsb universal_newlines]. intros H.
  apply orb_false_elim in H as [C H].
  rewrite N.eqb_sym, C. now rewrite (IH H).
Qed.

Lemma write_newlines_posix s : write_newlines posix_linesep s = s.
Proof.
  induction s as [|c s IH]; [reflexivity|].
  cbn [write_newlines]. rewrite IH.
  destruct (c =? lf)%N eqn:C; [|reflexivity].
  apply N.eqb_eq in C. now subst c.
Qed.

Lemma read_back_windows s :
  mentions cr s = false ->
  universal_newlines (write_newlines windows_linesep s) = s.
Proof.
  unfold windows_linesep.
  induction s as [|c s IH]; [reflexivity|].
  cbn [mentions existsb write_newlines]. intros H.
  apply orb_false_elim in H as [C H].
  destruct (c =? lf)%N eqn:L.
  - apply N.eqb_eq in L. subst c.
    cbn [app universal_newlines].
    rewrite N.eqb_refl, N.eqb_refl. now rewrite (IH H).
  - cbn [app universal_newlines].
    rewrite N.eqb_sym, C. now rewrite (IH H).
Qed.

Lemma write_windows_cr s :
  mentions lf s = true ->
  mentions cr (write_newlines windows_linesep s) = true.
Proof.
  induction s as [|c s IH]; [discriminate|]. intros H.
  cbn [write_newlines]. rewrite mentions_app.
  cbn [mentions existsb] in H. rewrite N.eqb_sym in H.
  destruct (c =? lf)%N; [reflexivity|].
  rewrite (IH H). apply orb_true_r.
Qed.

Lemma buffer_no_cr raw :
  mentions cr (transform (universal_newlines raw)) = false.
Proof. apply transform_no_cr, universal_newlines_no_cr. Qed.

(** X8.  Where the line separator is a line feed, the file written contains no
    carriage return, whatever the line endings of the file read and
    whether or not a stage matched. *)
Theorem written_file_has_no_cr raw :
  mentions cr (run_text posix_linesep raw) = false.
Proof.
  unfold run_text. rewrite write_newlines_posix. apply buffer_no_cr.
Qed.

(** X9.  Where the line separator is a carriage return and a line feed, a file
    with line feeds and no carriage return is never written back as it
    was: the file written has a carriage return. *)
Theorem lf_file_rewritten_with_crlf raw :
  mentions lf raw = true ->
  mentions cr raw = false ->
  mentions cr (run_text windows_linesep raw) = true /\
  run_text windows_linesep raw <> raw.
Proof.
  intros L C.
  assert (W : mentions cr (run_text windows_linesep raw) = true).
  { unfold run_text. rewrite (universal_newlines_id raw C).
    apply write_windows_cr, transform_keeps_lf, L. }
  split; [exact W|]. intros E. rewrite E in W. congruence.
Qed.

Lemma lf_file_rewritten_with_crlf_plain :
  mentions lf plain_rs = true /\
  mentions cr plain_rs = false /\
  mentions cr (run_text windows_linesep plain_rs) = true /\
  run_text windows_linesep plain_rs <> plain_rs.
Proof.
  assert (H1 : mentions lf plain_rs = true) by (vm_compute; reflexivity).
  assert (H2 : mentions cr plain_rs = false) by (vm_compute; reflexivity).
  exact (conj H1 (conj H2 (lf_file_rewritten_with_crlf plain_rs H1 H2))).
Defined.

(** X10.  A second run reads back exactly the buffer the first run wrote, under
    either line separator: run on the file two times, the script applies
    the transformation two times to the text first read. *)
Theorem second_run_reads_first_buffer raw :
  universal_newlines (run_text posix_linesep raw) =
    transform (universal_newlines raw) /\
  universal_newlines (run_text windows_linesep raw) =
    transform (universal_newlines raw) /\
  run_text posix_linesep (run_text posix_linesep raw) =
    write_newlines posix_linesep
      (transform (transform (universal_newlines raw))) /\
  run_text windows_linesep (run_text windows_linesep raw) =
    write_newlines windows_linesep
      (transform (transform (universal_newlines raw))).
Proof.
  assert (P : universal_newlines (run_text posix_linesep raw) =
              transform (universal_newlines raw)).
  { unfold run_text. rewrite write_newlines_posix.
    apply universal_newlines_id, buffer_no_cr. }
  assert (W : universal_newlines (run_text windows_linesep raw) =
              transform (universal_newlines raw)).
  { unfold run_text. apply read_back_windows, buffer_no_cr. }
  repeat split; auto.
  - unfold run_text at 1. now rewrite P.
  - unfold run_text at 1. now rewrite W.
Qed.

(** X11.  The stages see line feeds only.  A file with carriage return and line
    feed at every line end is transformed as the same file with line feeds
    is, under any line separator; and where the separator is a line feed, a
    file without carriage returns is written as the transformation of its
    text. *)
Theorem line_endings_read_alike linesep s :
  mentions cr s = false ->
  run_text linesep (write_newlines windows_linesep s) = run_text linesep s /\
  run_text posix_linesep s = transform s.
Proof.
  intros C. unfold run_text.
  rewrite (read_back_windows s C), (universal_newlines_id s C).
  split; [reflexivity | apply write_newlines_posix].
Qed.

Lemma line_endings_read_alike_sample :
  mentions cr screenshot_rs = false /\
  run_text windows_linesep (write_newlines windows_linesep screenshot_rs) =
    run_text windows_linesep screenshot_rs /\
  run_text posix_linesep screenshot_rs = transform screenshot_rs.
Proof.
  assert (H : mentions cr screenshot_rs = false) by (vm_compute; reflexivity).
  exact (conj H (line_endings_read_alike windows_linesep screenshot_rs H)).
Defined.

(** ** The scope of the [get_screenshots] stage *)

(** X12.  The [get_screenshots] stage rewrites the text between the first header
    and the first newline-and-[}] after it, and nothing else: with no
    second header, what stands before the header and after that closing
    line is kept as it is, guard clauses and constructions included. *)
Theorem get_screenshots_stage_scope pre body post :
  fresh header pre ->
  fresh close_brace body ->
  contains header post = false ->
  stage_get_screenshots (pre ++ header ++ body ++ close_brace ++ post) =
  pre ++ header ++ pass_construction (pass_guard body) ++ close_brace ++ post.
Proof.
  intros Fp Fb N.
  rewrite (stage_get_screenshots_step pre body post Fp Fb).
  do 4 f_equal. unfold stage_get_screenshots.
  apply (re_sub_absent get_screenshots_pattern _ post). exact N.
Qed.

Lemma get_screenshots_stage_scope_sample :
  fresh header rs_pre /\
  fresh close_brace rs_body /\
  contains header rs_post = false /\
  stage_get_screenshots
    (rs_pre ++ header ++ rs_body ++ close_brace ++ rs_post) =
  rs_pre ++ header ++ pass_construction (pass_guard rs_body) ++
  close_brace ++ rs_post.
Proof.
  assert (H1 : fresh header rs_pre) by (vm_compute; reflexivity).
  assert (H2 : fresh close_brace rs_body) by (vm_compute; reflexivity).
  assert (H3 : contains header rs_post = false) by (vm_compute; reflexivity).
  exact (conj H1 (conj H2 (conj H3
           (get_screenshots_stage_scope rs_pre rs_body rs_post H1 H2 H3)))).
Defined.

(** ** A second run of the construction rewrite *)

Lemma construction_shape_space w e :
  matches construction_pattern w [] e ->
  exists a ws,
    w = (a ++ timestamp_field) ++ ws ++ brace /\ all_space ws.
Proof.
  unfold construction_pattern; cbn [seq_re]. intros H. invert_matches.
  match goal with
  | S : forallb (in_cls Space) ?c = true
    |- exists a ws, ?o ++ ?x ++ ?f ++ ?y ++ ?t ++ ?c ++ _ = _ /\ _ =>
      exists (o ++ x ++ f ++ y), c; split; [|exact S]
  end.
  now rewrite <- !app_assoc.
Qed.

(** An occurrence lies at or after the first one. *)
Lemma first_occurrence_le b : forall l r a z,
  fresh b l -> l ++ b ++ r = a ++ b ++ z -> exists d, a = l ++ d.
Proof.
  induction l as [|c l IH]; intros r a z F E.
  - now exists a.
  - destruct a as [|c' a].
    + pose proof (fresh_cons_ext b c l r F) as N.
      simpl in E. rewrite E, starts_with_app in N. discriminate.
    + simpl in E. injection E as -> E.
      apply fresh_cons in F as [_ F].
      destruct (IH r a z F E) as [d ->]. now exists d.
Qed.

Lemma inner_occurrence b x d z :
  d <> [] -> b ++ x = d ++ b ++ z -> contains b (tl b ++ x) = true.
Proof.
  intros D E. destruct d as [|c d]; [congruence|].
  destruct b as [|a b].
  - unfold contains. now rewrite find_nil_l.
  - simpl in E. injection E as _ E. simpl tl. rewrite E.
    apply (contains_intro (a :: b) d z).
Qed.

(** Two runs of whitespace that end at a character that is no whitespace
    end at the same character. *)
Lemma space_run_end : forall a b c d x y,
  all_space a -> all_space b -> is_space c = false -> is_space d = false ->
  a ++ c :: x = b ++ d :: y -> c = d.
Proof.
  unfold all_space.
  induction a as [|e a IH]; intros [|e' b] c d x y A B C D E;
    simpl in *.
  - congruence.
  - injection E as -> _. apply andb_prop in B as [B _]. congruence.
  - injection E as -> _. apply andb_prop in A as [A _]. congruence.
  - injection E as _ E.
    apply andb_prop in A as [_ A]. apply andb_prop in B as [_ B].
    exact (IH b c d x y A B C D E).
Qed.

Lemma rewrite_head_split :
  rewrite_head = rewrite_before ++ timestamp_field ++ tags_field_line.
Proof. now vm_compute. Qed.

Lemma rewrite_before_not_nil : rewrite_before <> [].
Proof. now vm_compute. Qed.

Lemma rewritten_search_none pre rest :
  contains timestamp_field pre = false ->
  contains timestamp_field rest = false ->
  search construction_pattern (pre ++ rewrite_head ++ rest) false = None.
Proof.
  intros Np Nr.
  destruct (search construction_pattern (pre ++ rewrite_head ++ rest) false)
    as [[[p m] r]|] eqn:S; [exfalso|reflexivity].
  apply search_sound in S as (E & M & _).
  apply construction_shape_space in M as (a & ws & W & Sp).
  assert (F : fresh timestamp_field (pre ++ rewrite_before)).
  { rewrite <- (app_nil_r rewrite_before).
    apply fresh_isolated;
      [exact rewrite_before_not_nil | now vm_compute | now vm_compute
      | exact Np | apply fresh_nil]. }
  assert (E' : (pre ++ rewrite_before) ++ timestamp_field ++
               (tags_field_line ++ rest) =
               (p ++ a) ++ timestamp_field ++ (ws ++ brace ++ r)).
  { rewrite rewrite_head_split in E. rewrite W in E.
    rewrite <- !app_assoc in E. rewrite <- !app_assoc. exact E. }
  destruct (first_occurrence_le _ _ _ _ _ F E') as [d D].
  rewrite D, <- (app_assoc _ d) in E'. apply app_inv_head in E'.
  destruct d as [|c d].
  - simpl in E'. apply app_inv_head in E'.
    assert (X : 116%N = 125%N).
    { apply (space_run_end (nl ++ lit "                ") ws 116%N 125%N
               (lit "ags," ++ rest) r);
        [now vm_compute | exact Sp | reflexivity | reflexivity |].
      change (tags_field_line ++ rest = ws ++ brace ++ r). exact E'. }
    discriminate.
  - assert (C : contains timestamp_field
                  (tl timestamp_field ++ tags_field_line ++ rest) = true).
    { apply (inner_occurrence _ _ (c :: d) (ws ++ brace ++ r));
        [discriminate | exact E']. }
    unfold contains in C.
    rewrite app_assoc, find_no_start in C by now vm_compute.
    apply contains_false_find in Nr. rewrite Nr in C. discriminate.
Qed.

(** X13.  The construction rewrite does not take its own output for a
    construction: on a buffer with no other [timestamp,] than the one it
    wrote, it changes nothing, so a second run adds no second lookup and no
    second [tags] field there. *)
Theorem construction_not_rewritten_again pre rest :
  contains timestamp_field pre = false ->
  contains timestamp_field rest = false ->
  pass_construction (pre ++ tags_lookup ++ construction_fields ++ rest) =
  pre ++ tags_lookup ++ construction_fields ++ rest.
Proof.
  intros Np Nr. unfold pass_construction. apply re_sub_none.
  rewrite (app_assoc tags_lookup). fold rewrite_head.
  now apply rewritten_search_none.
Qed.

Lemma construction_not_rewritten_again_sample :
  contains timestamp_field (inj_head ++ injection ++ rs_b1) = false /\
  contains timestamp_field (rs_ws ++ brace ++ rs_b2) = false /\
  pass_construction
    ((inj_head ++ injection ++ rs_b1) ++ tags_lookup ++
     construction_fields ++ rs_ws ++ brace ++ rs_b2) =
  (inj_head ++ injection ++ rs_b1) ++ tags_lookup ++
  construction_fields ++ rs_ws ++ brace ++ rs_b2.
Proof.
  assert (H1 : contains timestamp_field (inj_head ++ injection ++ rs_b1) =
               false) by (vm_compute; reflexivity).
  assert (H2 : contains timestamp_field (rs_ws ++ brace ++ rs_b2) = false)
    by (vm_compute; reflexivity).
  exact (conj H1 (conj H2
           (construction_not_rewritten_again
              (inj_head ++ injection ++ rs_b1) (rs_ws ++ brace ++ rs_b2)
              H1 H2))).
Defined.

(** ** Run after run on the sites *)

Lemma fixed_site_single x y :
  contains timestamp_now (y ++ site_close) = false ->
  fixed_site x y =
  site_open ++ x ++ timestamp_now ++ (tags_default ++ y) ++ site_close.
Proof.
  intros N. unfold fixed_site.
  rewrite (str_replace_none _ _ timestamp_now_not_nil _
             (contains_false_find _ _ N)).
  now rewrite <- app_assoc.
Qed.

Lemma defaulted_single s :
  single_field_site s -> single_field_site (defaulted 1 s).
Proof.
  destruct s as [[pre x] y]. intros [(Fp & Fx & Fy) N].
  cbn [defaulted repeat concat]. rewrite app_nil_r.
  repeat split; auto.
  - apply fresh_after; [now vm_compute | exact Fy].
  - unfold contains in *. rewrite <- app_assoc.
    rewrite find_no_start by now vm_compute.
    now destruct (find timestamp_now (y ++ site_close)).
Qed.

Lemma defaulted_S n s : defaulted 1 (defaulted n s) = defaulted (S n) s.
Proof.
  destruct s as [[pre x] y]. cbn [defaulted repeat concat].
  now rewrite app_nil_r, app_assoc.
Qed.

Lemma defaulted_0 l : map (defaulted 0) l = l.
Proof.
  induction l as [|[[pre x] y] l IH]; [reflexivity|].
  cbn [map defaulted repeat concat app]. now rewrite IH.
Qed.

Lemma with_fixed_single l tail :
  Forall single_field_site l ->
  with_fixed_sites l tail = with_sites (map (defaulted 1) l) tail.
Proof.
  induction 1 as [|[[pre x] y] l [_ N] _ IH]; [reflexivity|].
  cbn [with_fixed_sites with_sites map defaulted repeat concat].
  rewrite (fixed_site_single x y N), IH, app_nil_r.
  now rewrite <- !app_assoc.
Qed.

Lemma single_is_site l :
  Forall single_field_site l -> Forall is_site l.
Proof.
  apply Forall_impl. intros [[pre x] y] [H _]. exact H.
Qed.

(** X14.  Every run of the site stage adds one more default line at every site:
    on a buffer cut at its sites, each with one [timestamp: now,], [n] runs
    leave [n] lines [tags: vec![],] after that field in each site, and
    keep the rest. *)
Theorem defaults_pile_up n l tail :
  Forall single_field_site l ->
  search site_pattern tail false = None ->
  Nat.iter n stage_sites (with_sites l tail) =
  with_sites (map (defaulted n) l) tail.
Proof.
  intros Hl Ht. induction n as [|n IH].
  - cbn [Nat.iter nat_rect]. now rewrite defaulted_0.
  - change (Nat.iter (S n) stage_sites (with_sites l tail))
      with (stage_sites (Nat.iter n stage_sites (with_sites l tail))).
    rewrite IH.
    assert (Hn : Forall single_field_site (map (defaulted n) l)).
    { clear IH. induction n as [|n IHn].
      - now rewrite defaulted_0.
      - rewrite (map_ext (defaulted (S n))
                   (fun s => defaulted 1 (defaulted n s)))
          by (intros s; symmetry; apply defaulted_S).
        rewrite <- map_map. apply Forall_map.
        exact (Forall_impl _ defaulted_single IHn). }
    rewrite (stage_sites_all _ tail (single_is_site _ Hn) Ht).
    rewrite (with_fixed_single _ tail Hn), map_map.
    f_equal. apply map_ext. intros s. apply defaulted_S.
Qed.

Lemma defaults_pile_up_capture :
  Forall single_field_site capture_sites /\
  search site_pattern nl false = None /\
  Nat.iter 3 stage_sites (with_sites capture_sites nl) =
  with_sites (map (defaulted 3) capture_sites) nl.
Proof.
  assert (H1 : Forall single_field_site capture_sites).
  { repeat constructor; vm_compute; reflexivity. }
  assert (H2 : search site_pattern nl false = None)
    by (vm_compute; reflexivity).
  exact (conj H1 (conj H2 (defaults_pile_up 3 capture_sites nl H1 H2))).
Defined.

(* ================================================================== *)
(** * Two runs on a file of the expected shape *)
(* ================================================================== *)

(** ** Prefixes the scans pass over *)

Lemma fresh_prefix_absent b p q :
  b <> [] -> fresh b (p ++ q) -> contains b p = false.
Proof.
  intros B F. destruct (contains b p) eqn:C; [exfalso|reflexivity].
  unfold contains in C. destruct (find b p) as [i|] eqn:E; [|discriminate].
  apply find_Some in E as (p1 & p2 & -> & _ & F1).
  unfold fresh in F. rewrite <- !app_assoc in F.
  rewrite (find_fresh b p1 _ F1) in F. injection F as F.
  rewrite !length_app in F. destruct b; [congruence | simpl in F; lia].
Qed.

Lemma fresh_of_absent b p :
  b <> [] -> no_cross b b = true -> contains b p = false -> fresh b p.
Proof.
  intros B C. induction p as [|c p IH]; intros H; [apply fresh_nil|].
  apply contains_cons in H as [H1 H2].
  unfold fresh. simpl app. rewrite find_cons.
  destruct (starts_with b (c :: p ++ b)) eqn:E.
  - assert (E' : starts_with b ((c :: p) ++ b ++ []) = true)
      by (rewrite app_nil_r; exact E).
    apply (no_cross_reach b c p b [] B C) in E'. congruence.
  - specialize (IH H2). unfold fresh in IH. now rewrite IH.
Qed.

Lemma fresh_after_absent b u q :
  absent_before b u -> fresh b q -> fresh b (u ++ q).
Proof.
  unfold fresh. intros A F.
  rewrite <- app_assoc, (A (q ++ b)), F. simpl. now rewrite length_app.
Qed.

Lemma str_replace_skip old new u v :
  old <> [] -> absent_before old u ->
  str_replace old new (u ++ v) = u ++ str_replace old new v.
Proof.
  intros O A. destruct (find old v) as [j|] eqn:F.
  - apply find_Some in F as (p & r & -> & _ & Fp).
    rewrite (str_replace_fresh old new O p r Fp).
    rewrite app_assoc.
    rewrite (str_replace_fresh old new O (u ++ p) r
               (fresh_after_absent _ _ _ A Fp)).
    now rewrite <- app_assoc.
  - rewrite (str_replace_none old new O v F).
    apply (str_replace_none old new O). now rewrite (A v), F.
Qed.

Lemma absent_of_adds P s s' :
  P <> [] -> adds_at_most P 0 s s' ->
  contains P s = false -> contains P s' = false.
Proof.
  intros Pn H C. apply (occurrences_zero P Pn).
  apply (occurrences_zero P Pn) in C.
  pose proof (adds_count P 0 s s' H). lia.
Qed.

Lemma struct_absent_end s adv :
  contains struct_end s = false -> search struct_pattern s adv = None.
Proof.
  intros N.
  destruct (search struct_pattern s adv) as [[[p m] r]|] eqn:S;
    [|reflexivity].
  apply struct_search_end in S as (x & E).
  rewrite E, contains_intro in N. discriminate.
Qed.

(** The third stage passes over a prefix in which no anchor starts, and
    adds no occurrence of a text that its insertion does not touch. *)
Lemma stage_save_cmd_skip u v :
  absent_before anchor u ->
  exists v',
    stage_save_cmd (u ++ v) = u ++ v' /\
    forall P, P <> [] ->
      no_cross P inserted_cmd = true -> no_start P inserted_cmd = true ->
      adds_at_most P 0 v v'.
Proof.
  intros A. destruct (contains marker (u ++ v)) eqn:M.
  - exists v. split; [now apply stage_save_cmd_guarded|].
    intros P _ _ _. apply adds_refl.
  - exists (str_replace anchor (inserted_cmd ++ anchor) v). split.
    + rewrite (stage_save_cmd_unguarded _ M).
      now apply str_replace_skip; [exact anchor_not_nil|].
    + intros P Pn C N.
      apply (str_replace_congr anchor _ (adds_at_most P 0)
               (adds_congruence P) anchor_not_nil).
      apply (congr_app _ (adds_congruence P) [] inserted_cmd anchor anchor);
        [|apply adds_refl].
      now apply adds_text_none; [|exact inserted_cmd_not_nil| |].
Qed.

Lemma sidecar_loading_init : sidecar_loading = sidecar_init ++ nl.
Proof. now vm_compute. Qed.

Lemma injection_init :
  injection = inj_head ++ injected_guard ++ sidecar_init ++ nl.
Proof. now vm_compute. Qed.

Lemma pass_guard_nl s : pass_guard (nl ++ s) = nl ++ pass_guard s.
Proof.
  unfold pass_guard.
  apply (re_sub_skip guard_pattern _ guard_never_empty nl s).
  apply absent_no_start. now vm_compute.
Qed.

Lemma pass_construction_nl s :
  pass_construction (nl ++ s) = nl ++ pass_construction s.
Proof.
  unfold pass_construction.
  apply (re_sub_skip construction_pattern _ construction_never_empty nl s).
  apply absent_no_start. now vm_compute.
Qed.

(** What follows the first newline of a text comes out of the two passes
    after a newline again. *)
Lemma passes_newline_first x q t z :
  nl ++ x = q ++ close_brace ++ z ->
  exists w, pass_construction (pass_guard q) ++ close_brace ++ t = nl ++ w.
Proof.
  intros E. destruct q as [|c q].
  - exists (brace ++ t).
    replace (pass_construction (pass_guard [])) with (@nil char)
      by now vm_compute.
    rewrite close_brace_eq. now rewrite <- app_assoc.
  - simpl in E. injection E as <- _.
    exists (pass_construction (pass_guard q) ++ close_brace ++ t).
    change (10%N :: q) with (nl ++ q).
    now rewrite pass_guard_nl, pass_construction_nl, <- app_assoc.
Qed.

(** ** The two runs *)

Section TwoRuns.

Variables a0 mid a1 b0 w1 w2 w3 rest z : str.

Hypothesis Fa0 : fresh struct_open a0.
Hypothesis Fmid : fresh struct_end mid.
Hypothesis Nend :
  contains struct_end
    (a1 ++ header ++ (b0 ++ guard_text w1 w2 w3 ++ rest) ++ close_brace ++ z)
  = false.
Hypothesis Nhdr : contains header (a0 ++ struct_text mid ++ a1) = false.
Hypothesis Fcb : fresh close_brace (b0 ++ guard_text w1 w2 w3 ++ rest).
Hypothesis Ngl : contains guard_let b0 = false.
Hypothesis Nco : contains construction_open b0 = false.
Hypothesis S1 : all_space w1.
Hypothesis S2 : all_space w2.
Hypothesis S3 : all_space w3.
Hypothesis Nsite :
  contains site_open
    ((a0 ++ struct_text mid ++ a1) ++ header ++ b0 ++
     guard_text w1 w2 w3 ++ rest) = false.
Hypothesis Nanchor :
  contains anchor
    ((a0 ++ struct_text mid ++ a1) ++ header ++ b0 ++
     guard_text w1 w2 w3 ++ rest) = false.

Lemma struct_adds P :
  P <> [] -> no_cross P tags_decl = true -> no_start P tags_decl = true ->
  adds_at_most P 0 (a0 ++ struct_text mid ++ a1)
    (a0 ++ struct_text_tagged mid ++ a1).
Proof.
  intros Pn C N. pose proof (adds_congruence P) as [Qr Qa].
  unfold struct_text, struct_text_tagged. rewrite <- !app_assoc.
  do 4 (apply Qa; [apply Qr|]).
  apply (Qa [] tags_decl (close_brace ++ a1) (close_brace ++ a1));
    [|apply Qr].
  apply (adds_text_none P Pn); [now vm_compute | exact C | exact N].
Qed.

Lemma body_adds P :
  P <> [] ->
  no_cross P injection = true -> no_start P injection = true ->
  no_cross P rewrite_head = true -> no_start P rewrite_head = true ->
  adds_at_most P 0 (b0 ++ guard_text w1 w2 w3 ++ rest)
    (b0 ++ injection ++ pass_construction (pass_guard rest)).
Proof.
  intros Pn Ci Ni Cr Nr. pose proof (adds_congruence P) as [Qr Qa].
  apply Qa; [apply Qr|]. apply Qa.
  - apply (adds_text_none P Pn); [exact injection_not_nil | exact Ci | exact Ni].
  - apply (adds_trans P 0 0 _ (pass_guard rest)).
    + now apply pass_guard_adds.
    + now apply pass_construction_adds.
Qed.

Lemma region_adds P :
  P <> [] -> apart_from_edits P = true ->
  adds_at_most P 0
    ((a0 ++ struct_text mid ++ a1) ++ header ++ b0 ++
     guard_text w1 w2 w3 ++ rest)
    ((a0 ++ struct_text_tagged mid ++ a1) ++ header ++ b0 ++ injection ++
     pass_construction (pass_guard rest)).
Proof.
  intros Pn H. unfold apart_from_edits in H. split_checks H.
  pose proof (adds_congruence P) as [Qr Qa].
  apply Qa; [now apply struct_adds|].
  apply Qa; [apply Qr|]. now apply body_adds.
Qed.

Lemma tagged_fresh_header :
  fresh header (a0 ++ struct_text_tagged mid ++ a1).
Proof.
  apply fresh_of_absent; [now vm_compute | now vm_compute |].
  apply (absent_of_adds header _ _ ltac:(now vm_compute)
           (struct_adds header ltac:(now vm_compute) ltac:(now vm_compute)
              ltac:(now vm_compute)) Nhdr).
Qed.

(** The first run, stage by stage. *)
Lemma run1_struct :
  stage_struct
    ((a0 ++ struct_text mid ++ a1) ++ header ++
     (b0 ++ guard_text w1 w2 w3 ++ rest) ++ close_brace ++ z) =
  (a0 ++ struct_text_tagged mid ++ a1) ++ header ++
  (b0 ++ guard_text w1 w2 w3 ++ rest) ++ close_brace ++ z.
Proof.
  unfold struct_text, struct_text_tagged. rewrite <- !app_assoc.
  rewrite (stage_struct_step a0 mid _ Fa0 Fmid).
  do 6 f_equal. apply re_sub_none, struct_absent_end.
  rewrite <- !app_assoc in Nend. exact Nend.
Qed.

Lemma run1_get_screenshots :
  stage_get_screenshots
    ((a0 ++ struct_text_tagged mid ++ a1) ++ header ++
     (b0 ++ guard_text w1 w2 w3 ++ rest) ++ close_brace ++ z) =
  (a0 ++ struct_text_tagged mid ++ a1) ++ header ++
  (b0 ++ injection ++ pass_construction (pass_guard rest)) ++
  close_brace ++ stage_get_screenshots z.
Proof.
  rewrite (stage_get_screenshots_step _ _ z tagged_fresh_header Fcb).
  do 2 f_equal. f_equal.
  rewrite (pass_guard_step b0 w1 w2 w3 rest
             (fresh_of_absent guard_let b0 ltac:(now vm_compute)
                ltac:(now vm_compute) Ngl) S1 S2 S3).
  unfold pass_construction at 1.
  rewrite app_assoc,
    (re_sub_skip construction_pattern _ construction_never_empty
       (b0 ++ injection) _ (injection_absent b0 Nco)).
  now rewrite <- app_assoc.
Qed.

(** Neither an anchor nor a site starts in the part of the buffer that
    ends with the function. *)
Lemma region_absent P :
  P <> [] -> apart_from_edits P = true ->
  no_cross P close_brace = true -> no_start P close_brace = true ->
  contains P
    ((a0 ++ struct_text mid ++ a1) ++ header ++ b0 ++
     guard_text w1 w2 w3 ++ rest) = false ->
  absent_before P
    (((a0 ++ struct_text_tagged mid ++ a1) ++ header ++ b0 ++ injection ++
      pass_construction (pass_guard rest)) ++ close_brace).
Proof.
  intros Pn H C N A.
  apply absent_isolated; [now vm_compute | exact C | exact N |].
  exact (absent_of_adds P _ _ Pn (region_adds P Pn H) A).
Qed.

Lemma run1 :
  exists v,
    transform
      ((a0 ++ struct_text mid ++ a1) ++ header ++
       (b0 ++ guard_text w1 w2 w3 ++ rest) ++ close_brace ++ z) =
    (((a0 ++ struct_text_tagged mid ++ a1) ++ header ++ b0 ++ injection ++
      pass_construction (pass_guard rest)) ++ close_brace) ++ v /\
    adds_at_most struct_end 0 z v.
Proof.
  rewrite transform_unfold, run1_struct, run1_get_screenshots.
  replace ((a0 ++ struct_text_tagged mid ++ a1) ++ header ++
           (b0 ++ injection ++ pass_construction (pass_guard rest)) ++
           close_brace ++ stage_get_screenshots z)
    with ((((a0 ++ struct_text_tagged mid ++ a1) ++ header ++ b0 ++
            injection ++ pass_construction (pass_guard rest)) ++
           close_brace) ++ stage_get_screenshots z)
    by now rewrite <- !app_assoc.
  destruct (stage_save_cmd_skip _ (stage_get_screenshots z)
              (region_absent anchor anchor_not_nil ltac:(now vm_compute)
                 ltac:(now vm_compute) ltac:(now vm_compute) Nanchor))
    as (v3 & -> & A3).
  unfold stage_sites at 1.
  rewrite (re_sub_skip site_pattern _ site_never_empty _ v3
             (region_absent site_open site_open_not_nil ltac:(now vm_compute)
                ltac:(now vm_compute) ltac:(now vm_compute) Nsite)).
  exists (stage_sites v3). split; [reflexivity|].
  assert (Pn : struct_end <> []) by now vm_compute.
  apply (adds_trans struct_end 0 0 _ (stage_get_screenshots z)).
  - apply (stage_get_screenshots_adds struct_end Pn); now vm_compute.
  - apply (adds_trans struct_end 0 0 _ v3).
    + apply (A3 struct_end Pn); now vm_compute.
    + apply keeps_adds, (stage_sites_keeps struct_end Pn); now vm_compute.
Qed.

Lemma prefix_absent P :
  P <> [] -> no_cross P tags_decl = true -> no_start P tags_decl = true ->
  no_cross P reinjected = true -> no_start P reinjected = true ->
  contains P
    ((a0 ++ struct_text mid ++ a1) ++ header ++ b0 ++
     guard_text w1 w2 w3 ++ rest) = false ->
  absent_before P
    (((a0 ++ struct_text_tagged mid ++ a1) ++ header ++ b0) ++ reinjected).
Proof.
  intros Pn C N Cr Nr A.
  apply absent_isolated; [now vm_compute | exact Cr | exact Nr |].
  replace ((a0 ++ struct_text mid ++ a1) ++ header ++ b0 ++
           guard_text w1 w2 w3 ++ rest)
    with (((a0 ++ struct_text mid ++ a1) ++ header ++ b0) ++
          guard_text w1 w2 w3 ++ rest) in A by now rewrite <- !app_assoc.
  apply contains_app_l in A.
  refine (absent_of_adds P _ _ Pn _ A).
  pose proof (adds_congruence P) as [Qr Qa].
  apply Qa; [now apply struct_adds | apply Qr].
Qed.

(** The second run: the struct stage finds nothing, and the
    [get_screenshots] stage finds the guard clause of the injected text. *)
Lemma run2 :
  exists v,
    transform
      (transform
         ((a0 ++ struct_text mid ++ a1) ++ header ++
          (b0 ++ guard_text w1 w2 w3 ++ rest) ++ close_brace ++ z)) =
    (((a0 ++ struct_text_tagged mid ++ a1) ++ header ++ b0) ++ reinjected) ++
    v.
Proof.
  destruct run1 as (v & -> & Av).
  set (R := pass_construction (pass_guard rest)).
  set (A' := a0 ++ struct_text_tagged mid ++ a1).
  assert (Pn : struct_end <> []) by now vm_compute.
  rewrite transform_unfold.
  (* the struct stage *)
  assert (St : stage_struct
                 (((A' ++ header ++ b0 ++ injection ++ R) ++ close_brace) ++
                  v) =
               A' ++ header ++
               ((b0 ++ inj_head ++ injected_guard ++ sidecar_init) ++
                nl ++ R ++ close_brace ++ v)).
  { rewrite (re_sub_none struct_pattern struct_repl).
    - rewrite injection_init. now rewrite <- !app_assoc.
    - replace (((A' ++ header ++ b0 ++ injection ++ R) ++ close_brace) ++ v)
        with (a0 ++ struct_open ++
              (mid ++ struct_end_tagged ++
               (a1 ++ header ++ (b0 ++ injection ++ R) ++ close_brace ++ v)))
        by (unfold A', struct_text_tagged, struct_end_tagged;
            now rewrite <- !app_assoc).
      apply (struct_search_needs_end a0 _ Fa0).
      apply (struct_end_gone mid _ Fmid).
      refine (absent_of_adds struct_end _ _ Pn _ Nend).
      pose proof (adds_congruence struct_end) as [Qr Qa].
      apply Qa; [apply Qr|]. apply Qa; [apply Qr|].
      apply Qa; [|apply Qa; [apply Qr | exact Av]].
      apply (body_adds struct_end Pn); now vm_compute. }
  unfold stage_struct in St. unfold stage_struct. rewrite St. clear St.
  (* the body of the second run *)
  assert (Ncb : contains close_brace b0 = false).
  { apply (fresh_prefix_absent close_brace b0 _ ltac:(now vm_compute) Fcb). }
  assert (Ab : absent_before close_brace
                 (b0 ++ inj_head ++ injected_guard ++ sidecar_init)).
  { apply absent_isolated; [now vm_compute ..| exact Ncb]. }
  destruct (find close_brace (nl ++ R ++ close_brace ++ v)) as [j|] eqn:Fj.
  2:{ exfalso.
      pose proof (contains_intro close_brace (nl ++ R) v) as C.
      unfold contains in C. rewrite <- !app_assoc in C.
      rewrite Fj in C. discriminate. }
  apply find_Some in Fj as (q & z' & Eq & _ & Fq).
  rewrite Eq.
  replace ((b0 ++ inj_head ++ injected_guard ++ sidecar_init) ++
           q ++ close_brace ++ z')
    with (((b0 ++ inj_head ++ injected_guard ++ sidecar_init) ++ q) ++
          close_brace ++ z') by now rewrite <- !app_assoc.
  rewrite (stage_get_screenshots_step A' _ z' tagged_fresh_header
             (fresh_after_absent _ _ _ Ab Fq)).
  (* the guard pass *)
  assert (G : pass_guard
                ((b0 ++ inj_head ++ injected_guard ++ sidecar_init) ++ q) =
              (b0 ++ inj_head ++ injection ++ sidecar_init) ++ pass_guard q).
  { replace ((b0 ++ inj_head ++ injected_guard ++ sidecar_init) ++ q)
      with ((b0 ++ inj_head) ++ injected_guard ++ sidecar_init ++ q)
      by now rewrite <- !app_assoc.
    assert (F : fresh guard_let (b0 ++ inj_head)).
    { rewrite <- (app_nil_r inj_head).
      apply fresh_isolated; auto using fresh_nil; now vm_compute. }
    unfold injected_guard.
    rewrite (pass_guard_step _ _ _ _ _ F);
      [|now vm_compute|now vm_compute|now vm_compute].
    unfold pass_guard at 1.
    rewrite (re_sub_skip guard_pattern _ guard_never_empty sidecar_init q)
      by (apply absent_no_start; now vm_compute).
    now rewrite <- !app_assoc. }
  rewrite G. clear G.
  (* the construction pass *)
  unfold pass_construction at 1.
  rewrite (re_sub_skip construction_pattern _ construction_never_empty
             (b0 ++ inj_head ++ injection ++ sidecar_init) (pass_guard q))
    by (apply absent_isolated; [now vm_compute ..| exact Nco]).
  fold (pass_construction (pass_guard q)).
  destruct (passes_newline_first (R ++ close_brace ++ v) q
              (stage_get_screenshots z') z' Eq) as [w Ew].
  replace (A' ++ header ++
           ((b0 ++ inj_head ++ injection ++ sidecar_init) ++
            pass_construction (pass_guard q)) ++
           close_brace ++ stage_get_screenshots z')
    with (((A' ++ header ++ b0) ++ reinjected) ++ w).
  2:{ unfold reinjected. rewrite sidecar_loading_init.
      rewrite <- !app_assoc. do 6 f_equal.
      rewrite <- Ew. reflexivity. }
  (* the last two stages *)
  subst A'.
  destruct (stage_save_cmd_skip _ w
              (prefix_absent anchor anchor_not_nil ltac:(now vm_compute)
                 ltac:(now vm_compute) ltac:(now vm_compute)
                 ltac:(now vm_compute) Nanchor)) as (t3 & -> & _).
  unfold stage_sites at 1.
  rewrite (re_sub_skip site_pattern _ site_never_empty _ t3
             (prefix_absent site_open site_open_not_nil ltac:(now vm_compute)
                ltac:(now vm_compute) ltac:(now vm_compute)
                ltac:(now vm_compute) Nsite)).
  now exists (stage_sites t3).
Qed.

End TwoRuns.



